(** * Context vector manager (supply.js): embedding and verification

    A shallow embedding of the class [ContextVectorManager] of [supply.js]
    (keyword featurizer, cosine similarity, memory store, retriever and
    context assembler), followed by the properties of the specification
    that were checked against it.

    Conventions of the embedding.
    - A JavaScript string is the list of its UTF-16 code units.
    - In the module [Manager] a JavaScript number is idealised as a real
      number, plus [NaN]: rounding and overflow of IEEE doubles are outside
      that model, and it is used for what does not depend on them (counts,
      comparisons of scores, the store, the assembled context).  The module
      [Doubles] embeds the similarity scorer a second time over binary64
      floating-point numbers, the numbers of JavaScript; what depends on
      rounding or overflow is stated and proved there.
    - A plain object used as a dictionary is an association list in
      insertion order (the order of [Object.keys] and [Object.entries] for
      keys that are not array indices); property reads fall through to
      [Object.prototype], as [obj[key]] does for an object created by [{}].
    - Host functions whose result is implementation defined or irrelevant to
      the properties (number formatting and parsing, the source text of
      built-in functions) are fields of the class [Host]; [JSON.stringify]
      and the clock are arguments of the methods that call them.
    - What the network, the on-device library and the database answer is an
      input of the method that asks. *)

From Stdlib Require Import Floats.
From Stdlib Require Import Ascii String.
From Stdlib Require Import List ZArith NArith Bool Reals Lra Lia Permutation
  Sorted.
Import ListNotations.

Open Scope R_scope.

(** ** JavaScript values *)

Module JS.

Definition jstring := list N.

(** An ASCII literal as a JavaScript string. *)
Definition js (s : string) : jstring :=
  map N_of_ascii (list_ascii_of_string s).

Definition jstring_dec : forall a b : jstring, {a = b} + {a <> b} :=
  list_eq_dec N.eq_dec.

Inductive num := NaN | Num (r : R).

Definition nadd (a b : num) : num :=
  match a, b with Num x, Num y => Num (x + y) | _, _ => NaN end.

Definition nsub (a b : num) : num :=
  match a, b with Num x, Num y => Num (x - y) | _, _ => NaN end.

Definition nmul (a b : num) : num :=
  match a, b with Num x, Num y => Num (x * y) | _, _ => NaN end.

(** [a / b].  A zero divisor would give an infinity or [NaN] in JavaScript;
    the embedded code guards every division (lemma [divisor_nonzero]), and
    the model returns [NaN] there. *)
Definition ndiv (a b : num) : num :=
  match a, b with
  | Num x, Num y => if Req_dec_T y 0 then NaN else Num (x / y)
  | _, _ => NaN
  end.

(** [Math.sqrt]. *)
Definition nsqrt (a : num) : num :=
  match a with
  | Num x => if Rlt_dec x 0 then NaN else Num (sqrt x)
  | NaN => NaN
  end.

(** [a === 0] on numbers. *)
Definition is_zero (a : num) : bool :=
  match a with
  | Num x => if Req_dec_T x 0 then true else false
  | NaN => false
  end.

(** [a >= b] on numbers; false when either side is [NaN]. *)
Definition nge (a b : num) : bool :=
  match a, b with
  | Num x, Num y => if Rle_dec y x then true else false
  | _, _ => false
  end.

(** [a > 0] on numbers. *)
Definition positive (a : num) : bool :=
  match a with
  | Num x => if Rlt_dec 0 x then true else false
  | NaN => false
  end.

(** Values that occur as properties of the dictionaries of the program, and
    as results of reading them. *)
Inductive jsval :=
| VUndefined
| VNum (x : num)
| VStr (s : jstring)
| VNative (name : jstring)   (* the built-in function [Object.prototype[name]] *)
| VObjectPrototype.          (* [Object.prototype] itself, read through [__proto__] *)

Class Host := {
  (** [Function.prototype.toString] of the built-in [Object.prototype[name]]. *)
  nativeSource : jstring -> jstring;
  (** [Number(s)] for a string. *)
  stringToNumber : jstring -> num;
  (** [String(x)] for a number. *)
  numberToString : num -> jstring;
  (** [x.toFixed(digits)]. *)
  toFixed : num -> nat -> jstring
}.

Section Values.
Context {host : Host}.

Definition truthy (v : jsval) : bool :=
  match v with
  | VUndefined => false
  | VNum NaN => false
  | VNum (Num x) => if Req_dec_T x 0 then false else true
  | VStr s => match s with [] => false | _ => true end
  | VNative _ => true
  | VObjectPrototype => true
  end.

(** [a || b]. *)
Definition js_or (a b : jsval) : jsval := if truthy a then a else b.

Definition ToNumber (v : jsval) : num :=
  match v with
  | VUndefined => NaN
  | VNum x => x
  | VStr s => stringToNumber s
  | VNative name => stringToNumber (nativeSource name)
  | VObjectPrototype => stringToNumber (js "[object Object]")
  end.

Definition ToString (v : jsval) : jstring :=
  match v with
  | VUndefined => js "undefined"
  | VNum x => numberToString x
  | VStr s => s
  | VNative name => nativeSource name
  | VObjectPrototype => js "[object Object]"
  end.

(** Whether [ToPrimitive] of the value is a string. *)
Definition stringy (v : jsval) : bool :=
  match v with
  | VStr _ | VNative _ | VObjectPrototype => true
  | _ => false
  end.

(** [a + b]: concatenation as soon as one operand is a string after
    [ToPrimitive], numeric addition otherwise. *)
Definition js_add (a b : jsval) : jsval :=
  if stringy a || stringy b then VStr (ToString a ++ ToString b)
  else VNum (nadd (ToNumber a) (ToNumber b)).

(** [a - b] always converts to numbers. *)
Definition js_sub (a b : jsval) : num := nsub (ToNumber a) (ToNumber b).

End Values.

(** *** Plain objects *)

Definition obj := list (jstring * jsval).

(** The function-valued properties of [Object.prototype]. *)
Definition prototypeFunctions : list jstring :=
  map js [ "constructor"; "hasOwnProperty"; "isPrototypeOf";
           "propertyIsEnumerable"; "toLocaleString"; "toString"; "valueOf";
           "__defineGetter__"; "__defineSetter__"; "__lookupGetter__";
           "__lookupSetter__" ]%string.

Definition inherited (k : jstring) : jsval :=
  if jstring_dec k (js "__proto__") then VObjectPrototype
  else if in_dec jstring_dec k prototypeFunctions then VNative k
  else VUndefined.

Fixpoint own (o : obj) (k : jstring) : option jsval :=
  match o with
  | [] => None
  | (k', v) :: rest => if jstring_dec k' k then Some v else own rest k
  end.

(** [o[k]] *)
Definition get (o : obj) (k : jstring) : jsval :=
  match own o k with
  | Some v => v
  | None => inherited k
  end.

Fixpoint define (o : obj) (k : jstring) (v : jsval) : obj :=
  match o with
  | [] => [(k, v)]
  | (k', v') :: rest =>
      if jstring_dec k' k then (k', v) :: rest else (k', v') :: define rest k v
  end.

(** [o[k] = v].  Assigning [__proto__] calls the setter of
    [Object.prototype], which ignores the primitive values stored here. *)
Definition set (o : obj) (k : jstring) (v : jsval) : obj :=
  if jstring_dec k (js "__proto__") then o else define o k v.

(** [Object.keys(o)] and [Object.entries(o)]. *)
Definition keys (o : obj) : list jstring := map fst o.
Definition entries (o : obj) : list (jstring * jsval) := o.

(** *** Arrays and sets *)

(** [new Set(array)] followed by iteration: first occurrences, in order. *)
Definition set_add (s : list jstring) (k : jstring) : list jstring :=
  if in_dec jstring_dec k s then s else s ++ [k].

Definition new_Set (l : list jstring) : list jstring :=
  fold_left set_add l [].

(** [array.sort(cmp)]: the sort is stable, and an element moves behind
    another one exactly when the comparator is positive ([NaN] counts as 0).
    For a consistent comparator every stable sort yields this result.  For
    an inconsistent one (a comparator that returns [NaN] on some pairs, as
    with a weight that is a string) the order is implementation defined and
    engines differ from this insertion order; nothing below depends on the
    order in that case. *)
Fixpoint insert {A} (cmp : A -> A -> num) (x : A) (l : list A) : list A :=
  match l with
  | [] => [x]
  | y :: rest =>
      if positive (cmp x y) then y :: insert cmp x rest else x :: l
  end.

Definition sort {A} (cmp : A -> A -> num) (l : list A) : list A :=
  fold_right (insert cmp) [] l.

(** [array.slice(start)] and [string.substring(0, n)]. *)
Definition slice_from {A} (start : Z) (l : list A) : list A :=
  let len := Z.of_nat (length l) in
  let k := if (start <? 0)%Z then Z.max (len + start) 0 else Z.min start len in
  skipn (Z.to_nat k) l.

Definition substring0 (n : Z) (s : jstring) : jstring := firstn (Z.to_nat n) s.

Definition newline : jstring := [10%N].

(** [parts.join(sep)] *)
Fixpoint join (sep : jstring) (parts : list jstring) : jstring :=
  match parts with
  | [] => []
  | [p] => p
  | p :: rest => p ++ sep ++ join sep rest
  end.

End JS.

Import JS.

(** ** The manager *)

Module Manager.

(** *** Text featurizer *)

Inductive charClass := CJK | Latin.

Definition charClass_eqb (a b : charClass) : bool :=
  match a, b with CJK, CJK | Latin, Latin => true | _, _ => false end.

(** The two character classes of [/[\u4e00-\u9fa5]+|[a-zA-Z]+/g]. *)
Definition classify (c : N) : option charClass :=
  if ((0x4e00 <=? c) && (c <=? 0x9fa5))%N then Some CJK
  else if (((0x61 <=? c) && (c <=? 0x7a)) || ((0x41 <=? c) && (c <=? 0x5a)))%N
       then Some Latin
  else None.

(** [text.match(/[\u4e00-\u9fa5]+|[a-zA-Z]+/g) || []]: the maximal runs of
    one class, left to right.  [run] is the match in progress. *)
Fixpoint scan (run : option (charClass * jstring)) (text : jstring)
  : list jstring :=
  match text with
  | [] => match run with Some (_, w) => [w] | None => [] end
  | c :: rest =>
      match classify c, run with
      | Some k, Some (k', w) =>
          if charClass_eqb k k' then scan (Some (k, w ++ [c])) rest
          else w :: scan (Some (k, [c])) rest
      | Some k, None => scan (Some (k, [c])) rest
      | None, Some (_, w) => w :: scan None rest
      | None, None => scan None rest
      end
  end.

Definition matchWords (text : jstring) : list jstring := scan None text.

Record keyword := { word : jstring; weight : jsval }.

Section Featurizer.
Context {host : Host}.

(** The body of [words.forEach] in [extractKeywords]. *)
Definition countWord (wordFreq : obj) (w : jstring) : obj :=
  if (1 <? length w)%nat
  then set wordFreq w (js_add (js_or (get wordFreq w) (VNum (Num 0))) (VNum (Num 1)))
  else wordFreq.

Definition wordFrequencies (text : jstring) : obj :=
  fold_left countWord (matchWords text) [].

Definition extractKeywords (text : jstring) : list keyword :=
  map (fun e => {| word := fst e; weight := snd e |})
    (firstn 20
       (sort (fun a b => js_sub (snd b) (snd a))
          (entries (wordFrequencies text)))).

Definition createKeywordVector (text : jstring) : obj :=
  fold_left (fun vector k => set vector (word k) (weight k))
    (extractKeywords text) [].

End Featurizer.

(** *** Similarity scorer *)

(** What [calculateCosineSimilarity] and the store hold as a vector: absent,
    a dense array of numbers, or a sparse term-weight object. *)
Inductive jsvec :=
| VecUndefined
| VecNull
| Dense (a : list num)
| Sparse (o : obj).

(** [!vec] *)
Definition absent (v : jsvec) : bool :=
  match v with VecUndefined | VecNull => true | _ => false end.

(** [Array.isArray(vec)] *)
Definition isArray (v : jsvec) : bool :=
  match v with Dense _ => true | _ => false end.

(** [typeof vec === 'object'] *)
Definition typeofObject (v : jsvec) : bool :=
  match v with VecUndefined => false | _ => true end.

(** [vec.length] of an array and [Object.keys(vec).length]. *)
Definition size (v : jsvec) : nat :=
  match v with
  | Dense a => length a
  | Sparse o => length (keys o)
  | _ => 0%nat
  end.

(** The three accumulators [dotProduct], [norm1], [norm2]. *)
Definition sums := (num * num * num)%type.

Definition accumulate (acc : sums) (v1 v2 : num) : sums :=
  let '(dotProduct, norm1, norm2) := acc in
  (nadd dotProduct (nmul v1 v2), nadd norm1 (nmul v1 v1), nadd norm2 (nmul v2 v2)).

Definition cosine (acc : sums) : num :=
  let '(dotProduct, norm1, norm2) := acc in
  if is_zero norm1 || is_zero norm2 then Num 0
  else ndiv dotProduct (nmul (nsqrt norm1) (nsqrt norm2)).

Section Scorer.
Context {host : Host}.

(** [vec[key] || 0] as an operand of the products, which convert it to a
    number. *)
Definition weightOf (vec : obj) (key : jstring) : num :=
  ToNumber (js_or (get vec key) (VNum (Num 0))).

Definition calculateObjectCosineSimilarity (vec1 vec2 : obj) : num :=
  let allKeys := new_Set (keys vec1 ++ keys vec2) in
  cosine
    (fold_left
       (fun acc key => accumulate acc (weightOf vec1 key) (weightOf vec2 key))
       allKeys (Num 0, Num 0, Num 0)).

Definition calculateArrayCosineSimilarity (vec1 vec2 : list num) : num :=
  let len := Nat.min (length vec1) (length vec2) in
  cosine
    (fold_left
       (fun acc i => accumulate acc (nth i vec1 NaN) (nth i vec2 NaN))
       (seq 0 len) (Num 0, Num 0, Num 0)).

Definition calculateCosineSimilarity (vec1 vec2 : jsvec) : num :=
  if absent vec1 || absent vec2 then Num 0
  else if negb (Bool.eqb (isArray vec1) (isArray vec2)) then Num 0
  else
    match vec1, vec2 with
    | Dense a, Dense b => calculateArrayCosineSimilarity a b
    | Sparse a, Sparse b => calculateObjectCosineSimilarity a b
    | _, _ => Num 0 (* not reached: both are truthy and of one kind *)
    end.

End Scorer.

(** *** Memory store *)

(** The [variables] argument of [addConversation]: the fields that the
    manager reads.  [None] is [undefined]. *)
Record gameVariables := {
  location : option jstring;
  realm : option jstring;
  hp : option num;
  mp : option num;
  items : option (list jstring);
  relationships : option (list jstring)
}.

Module Important.
Record t := {
  location : option jstring;
  realm : option jstring;
  hp : option num;
  mp : option num;
  hasNewItems : option bool;
  hasNewRelationships : option bool
}.
End Important.

Inductive vectorKind := dense | sparse.

Record entry := {
  turnIndex : Z;
  userMessage : jstring;
  aiResponse : jstring;
  vector : jsvec;
  vectorType : vectorKind;
  summary : jstring;
  timestamp : Z;
  variables : Important.t
}.

Record manager := {
  conversationEmbeddings : list entry;
  embeddingMethod : jstring;
  maxRetrieveCount : nat;         (* a count; the class never assigns it *)
  minSimilarityThreshold : num
}.

(** [new ContextVectorManager()] *)
Definition constructor : manager := {|
  conversationEmbeddings := [];
  embeddingMethod := js "keyword";
  maxRetrieveCount := 5;
  minSimilarityThreshold := Num (3 / 10)
|}.

(** Methods run in a state monad over the manager. *)
Definition M (A : Type) : Type := manager -> A * manager.

Definition ret {A} (a : A) : M A := fun m => (a, m).

Definition bind {A B} (c : M A) (k : A -> M B) : M B :=
  fun m => let (a, m') := c m in k a m'.

Definition gets {A} (f : manager -> A) : M A := fun m => (f m, m).

(** [this.conversationEmbeddings = store] and [this.embeddingMethod = method] *)
Definition putStore (store : list entry) : M unit :=
  fun m => (tt, {| conversationEmbeddings := store;
                   embeddingMethod := embeddingMethod m;
                   maxRetrieveCount := maxRetrieveCount m;
                   minSimilarityThreshold := minSimilarityThreshold m |}).

(** [this.maxRetrieveCount = count; this.minSimilarityThreshold = threshold] *)
Definition putConfig (count : nat) (threshold : num) : M unit :=
  fun m => (tt, {| conversationEmbeddings := conversationEmbeddings m;
                   embeddingMethod := embeddingMethod m;
                   maxRetrieveCount := count;
                   minSimilarityThreshold := threshold |}).

Definition putMethod (method : jstring) : M unit :=
  fun m => (tt, {| conversationEmbeddings := conversationEmbeddings m;
                   embeddingMethod := method;
                   maxRetrieveCount := maxRetrieveCount m;
                   minSimilarityThreshold := minSimilarityThreshold m |}).

Notation "x <- c ;; k" := (bind c (fun x => k))
  (at level 61, c at next level, right associativity).
Notation "c ;;; k" := (bind c (fun _ => k))
  (at level 61, right associativity).

Definition exec {A} (c : M A) (m : manager) : manager := snd (c m).
Definition eval {A} (c : M A) (m : manager) : A := fst (c m).

(** [array.findIndex(p)]; [None] is [-1]. *)
Fixpoint findIndex {A} (p : A -> bool) (l : list A) : option nat :=
  match l with
  | [] => None
  | x :: rest =>
      if p x then Some 0%nat else option_map S (findIndex p rest)
  end.

(** [array.splice(i, 1)] *)
Definition splice1 {A} (i : nat) (l : list A) : list A :=
  firstn i l ++ skipn (S i) l.

(** What an awaited backend call does: it throws or returns a value. *)
Inductive outcome := Throws | Returns (v : jsvec).

(** The two awaited calls of [addConversation], as functions of the text. *)
Record backends := {
  remote : jstring -> outcome;
  onDevice : jstring -> outcome
}.

Definition str_player : jstring := [29609; 23478; 65306]%N.      (* 玩家： *)
Definition str_keywords : jstring := [20851; 38190; 35789; 65306]%N. (* 关键词： *)
Definition str_comma : jstring := [12289]%N.                    (* 、 *)
Definition str_location : jstring := [22320; 28857; 65306]%N.      (* 地点： *)

Section Store.
Context {host : Host}.

Definition extractSummary (userMessage aiResponse : jstring)
    (variables : gameVariables) : jstring :=
  let summary1 :=
    if (length userMessage <? 50)%nat then [str_player ++ userMessage]
    else [str_player ++ substring0 50 userMessage ++ js "..."] in
  let keywords := extractKeywords aiResponse in
  let summary2 :=
    if (0 <? length keywords)%nat
    then summary1 ++ [str_keywords ++ join str_comma (map word (firstn 5 keywords))]
    else summary1 in
  let summary3 :=
    match location variables with
    | Some (c :: l) => summary2 ++ [str_location ++ c :: l]
    | _ => summary2
    end in
  join (js " | ") summary3.

Definition extractImportantVariables (variables : gameVariables) : Important.t := {|
  Important.location := location variables;
  Important.realm := realm variables;
  Important.hp := hp variables;
  Important.mp := mp variables;
  Important.hasNewItems :=
    option_map (fun l => (0 <? length l)%nat) (items variables);
  Important.hasNewRelationships :=
    option_map (fun l => (0 <? length l)%nat) (relationships variables)
|}.

(** The condition of the validation step of [addConversation]. *)
Definition invalid (v : jsvec) : bool :=
  absent v
  || (isArray v && (size v =? 0)%nat)
  || (typeofObject v && (size v =? 0)%nat).

(** The branch of the [try] block chosen by [embeddingMethod]. *)
Definition selectBackend (B : backends) (method text : jstring) : outcome :=
  if jstring_dec method (js "keyword") then Returns (Sparse (createKeywordVector text))
  else if jstring_dec method (js "api") then remote B text
  else if jstring_dec method (js "transformers") then onDevice B text
  else Returns (Sparse (createKeywordVector text)).

(** The whole [try]/[catch] of [addConversation]: the value of [vector]
    after it. *)
Definition vectorize (B : backends) (method text : jstring) : jsvec :=
  match selectBackend B method text with
  | Returns v => if invalid v then Sparse (createKeywordVector text) else v
  | Throws => Sparse (createKeywordVector text)
  end.

Definition newEntry (B : backends) (method : jstring) (now : Z)
    (userMessage aiResponse : jstring) (turnIndex : Z)
    (variables : gameVariables) : entry :=
  let combinedText := userMessage ++ newline ++ aiResponse in
  let vector := vectorize B method combinedText in
  {| turnIndex := turnIndex;
     userMessage := userMessage;
     aiResponse := aiResponse;
     vector := vector;
     vectorType := if isArray vector then dense else sparse;
     summary := extractSummary userMessage aiResponse variables;
     timestamp := now;
     variables := extractImportantVariables variables |}.

(** [addConversation]; [B] gives the results of the awaited calls and [now]
    the value of [Date.now()].  This is a call that runs to its end before
    anything else touches the manager; [addConversation_until_await] and
    [addConversation_after_await] below are its two parts when other calls
    run while it awaits. *)
Definition addConversation (B : backends) (now : Z)
    (userMessage aiResponse : jstring) (turnIndex : Z)
    (variables : gameVariables) : M unit :=
  store <- gets conversationEmbeddings ;;
  let existingIndex :=
    findIndex (fun conv => (Manager.turnIndex conv =? turnIndex)%Z) store in
  let store' :=
    match existingIndex with
    | Some i => splice1 i store
    | None => store
    end in
  putStore store' ;;;
  method <- gets embeddingMethod ;;
  let conv := newEntry B method now userMessage aiResponse turnIndex variables in
  store'' <- gets conversationEmbeddings ;;
  putStore (store'' ++ [conv]).

(** A call that awaits a backend (lines 154 and 157) runs in two parts, and
    other calls of the page can run between them.  The first part is lines
    133-141 and the choice of the branch of line 149-157; it returns the
    [embeddingMethod] it read.  The second part runs when the awaited call has
    settled: validation, summary and [push] (lines 164-189), with [Date.now()]
    read then.  With the method ['keyword'], or an unknown one, nothing is
    awaited and the two parts run as one. *)
Definition addConversation_until_await (turnIndex : Z) : M jstring :=
  store <- gets conversationEmbeddings ;;
  let existingIndex :=
    findIndex (fun conv => (Manager.turnIndex conv =? turnIndex)%Z) store in
  let store' :=
    match existingIndex with
    | Some i => splice1 i store
    | None => store
    end in
  putStore store' ;;;
  gets embeddingMethod.

Definition addConversation_after_await (B : backends) (method : jstring)
    (now : Z) (userMessage aiResponse : jstring) (turnIndex : Z)
    (variables : gameVariables) : M unit :=
  let conv := newEntry B method now userMessage aiResponse turnIndex variables in
  store <- gets conversationEmbeddings ;;
  putStore (store ++ [conv]).

(** Two calls for one [turnIndex] of which the second starts while the
    first awaits its backend, as in
    [addConversation(u1, a1, t, v); addConversation(u2, a2, t, v)] without
    [await] between them. *)
Definition overlappingCalls (B : backends) (now1 now2 : Z)
    (u1 a1 u2 a2 : jstring) (turnIndex : Z) (variables : gameVariables)
  : M unit :=
  method1 <- addConversation_until_await turnIndex ;;
  method2 <- addConversation_until_await turnIndex ;;
  addConversation_after_await B method1 now1 u1 a1 turnIndex variables ;;;
  addConversation_after_await B method2 now2 u2 a2 turnIndex variables.

Definition clear : M unit := putStore [].

Definition setEmbeddingMethod (method : jstring) : M unit :=
  if in_dec jstring_dec method [js "keyword"; js "api"; js "transformers"]
  then putMethod method
  else ret tt.

End Store.

(** *** Vectorization backends *)

(** What the embedding request of [getEmbeddingFromAPI] comes to: anything
    that throws inside its [try] block (a bad endpoint, a rejected [fetch],
    a status that is not ok, a body without [data[0].embedding]), or the
    value found at [data.data[0].embedding]. *)
Inductive fetchResult :=
| RequestFails
| Embedding (v : jsvec).

(** What the on-device path comes to: the library is still undefined after
    the optional load, the load or the inference throws, or the pipeline
    returns its data. *)
Inductive pipelineResult :=
| LibraryUndefined
| PipelineThrows
| Features (data : list num).

Record message := { role : jstring; content : jstring }.

(** The parts of [window] that the manager reads. *)
Record window := {
  extraApiConfig_enabled : option bool;  (* [None]: no [extraApiConfig] *)
  fetchEmbeddings : jstring -> fetchResult;
  runTransformers : jstring -> pipelineResult;
  gameState_conversationHistory : option (list message)
}.

Section Backends.
Context {host : Host}.

Definition getEmbeddingFromAPI (w : window) (text : jstring) : outcome :=
  match extraApiConfig_enabled w with
  | Some true =>
      match fetchEmbeddings w (substring0 8000 text) with
      | Embedding v => Returns v
      | RequestFails => Returns (Sparse (createKeywordVector text))
      end
  | _ => Returns (Sparse (createKeywordVector text))
  end.

Definition getEmbeddingFromTransformers (w : window) (text : jstring) : outcome :=
  match runTransformers w (substring0 500 text) with
  | Features data => Returns (Dense data)
  | LibraryUndefined => Returns (Sparse (createKeywordVector text))
  | PipelineThrows => Returns (Sparse (createKeywordVector text))
  end.

(** The backends of the class itself. *)
Definition ownBackends (w : window) : backends := {|
  remote := getEmbeddingFromAPI w;
  onDevice := getEmbeddingFromTransformers w
|}.

End Backends.

(** *** Retriever *)

Module Scored.
(** An element of [similarities]. *)
Record t := {
  index : nat;
  turnIndex : Z;
  similarity : num;
  conversation : entry
}.
End Scored.

Module Chunk.
(** An element of [relevantChunks]. *)
Record t := {
  turnIndex : Z;
  userMessage : jstring;
  aiResponse : jstring;
  similarity : num;
  summary : jstring
}.
End Chunk.

Record retrieval := {
  relevantChunks : list Chunk.t;
  recentChunks : list message
}.

Section Retriever.
Context {host : Host}.

Definition score (currentVector : obj) (indexed : nat * entry) : Scored.t :=
  let (index, conv) := indexed in
  let convVector :=
    if isArray (vector conv)
    then Sparse (createKeywordVector (userMessage conv ++ newline ++ aiResponse conv))
    else vector conv in
  {| Scored.index := index;
     Scored.turnIndex := turnIndex conv;
     Scored.similarity :=
       calculateCosineSimilarity (Sparse currentVector) convVector;
     Scored.conversation := conv |}.

Definition toChunk (item : Scored.t) : Chunk.t := {|
  Chunk.turnIndex := Scored.turnIndex item;
  Chunk.userMessage := userMessage (Scored.conversation item);
  Chunk.aiResponse := aiResponse (Scored.conversation item);
  Chunk.similarity := Scored.similarity item;
  Chunk.summary := summary (Scored.conversation item)
|}.

(** [retrieveRelevantContext].  Nothing in the [try] block throws on the
    values of the model, so the [catch] branch has no counterpart. *)
Definition retrieveRelevantContext (currentInput : jstring)
    (recentHistory : list message) : M retrieval :=
  store <- gets conversationEmbeddings ;;
  if (length store =? 0)%nat
  then ret {| relevantChunks := []; recentChunks := recentHistory |}
  else
    let currentVector := createKeywordVector currentInput in
    if (length (keys currentVector) =? 0)%nat
    then ret {| relevantChunks := []; recentChunks := recentHistory |}
    else
      store <- gets conversationEmbeddings ;;
      let similarities :=
        map (score currentVector) (combine (seq 0 (length store)) store) in
      threshold <- gets minSimilarityThreshold ;;
      count <- gets maxRetrieveCount ;;
      let relevantConversations :=
        firstn count
          (sort (fun a b => nsub (Scored.similarity b) (Scored.similarity a))
             (filter (fun item => nge (Scored.similarity item) threshold)
                similarities)) in
      ret {| relevantChunks := map toChunk relevantConversations;
             recentChunks := recentHistory |}.

End Retriever.

(** *** Context assembler *)

Definition str_state : jstring :=    (* 当前角色变量状态： *)
  [24403; 21069; 35282; 33394; 21464; 37327; 29366; 24577; 65306]%N.
Definition str_recall : jstring :=   (* 【相关历史回忆】以下是与当前情境相关的过往记忆： *)
  [12304; 30456; 20851; 21382; 21490; 22238; 24518; 12305; 20197; 19979;
   26159; 19982; 24403; 21069; 24773; 22659; 30456; 20851; 30340; 36807;
   24448; 35760; 24518; 65306]%N.
Definition str_memory : jstring := [35760; 24518]%N.             (* 记忆 *)
Definition str_turn : jstring := [65288; 31532]%N.               (* （第 *)
Definition str_similarity : jstring :=                           (* 轮对话，相似度 *)
  [36718; 23545; 35805; 65292; 30456; 20284; 24230]%N.
Definition str_percent : jstring := [37; 65289; 65306]%N.        (* %）： *)
Definition str_action : jstring :=                               (* - 玩家行动： *)
  [45; 32; 29609; 23478; 34892; 21160; 65306]%N.
Definition str_plot : jstring :=                                 (* - 剧情摘要： *)
  [45; 32; 21095; 24773; 25688; 35201; 65306]%N.

Section Assembler.
Context {host : Host}.
(** [JSON.stringify(currentVariables, null, 2)] *)
Variable stringify : gameVariables -> jstring.

(** The body of [relevantChunks.forEach]. *)
Definition describe (relevantContext : jstring) (indexed : nat * Chunk.t)
  : jstring :=
  let (index, chunk) := indexed in
  relevantContext
  ++ str_memory ++ numberToString (Num (INR (index + 1)))
  ++ str_turn ++ numberToString (Num (IZR (Chunk.turnIndex chunk)))
  ++ str_similarity
  ++ toFixed (nmul (Chunk.similarity chunk) (Num 100)) 1
  ++ str_percent ++ newline
  ++ str_action ++ Chunk.userMessage chunk ++ newline
  ++ str_plot ++ Chunk.summary chunk ++ newline ++ newline.

Definition memoryMessage (chunks : list Chunk.t) : list message :=
  if (0 <? length chunks)%nat
  then [ {| role := js "system";
            content := fold_left describe
                         (combine (seq 0 (length chunks)) chunks)
                         (str_recall ++ newline ++ newline) |} ]
  else [].

(** [buildOptimizedMessages]; [w] supplies [window.gameState]. *)
Definition buildOptimizedMessages (w : window) (systemPrompt : jstring)
    (currentVariables : gameVariables) (currentInput : jstring)
    (historyDepth : Z) (fullConversationHistory : list message)
  : M (list message) :=
  let messages1 :=
    [ {| role := js "system"; content := systemPrompt |};
      {| role := js "system";
         content := str_state ++ newline ++ js "```json" ++ newline
                    ++ stringify currentVariables ++ newline ++ js "```" |} ] in
  retrievalResult <- retrieveRelevantContext currentInput [] ;;
  let messages2 := messages1 ++ memoryMessage (relevantChunks retrievalResult) in
  let conversationHistory :=
    if (0 <? length fullConversationHistory)%nat then fullConversationHistory
    else match gameState_conversationHistory w with
         | Some h => h
         | None => []
         end in
  let messages3 :=
    if (0 <? length conversationHistory)%nat && (0 <? historyDepth)%Z
    then messages2 ++ slice_from (- historyDepth * 2) conversationHistory
    else messages2 in
  ret (messages3 ++ [ {| role := js "user"; content := currentInput |} ]).

End Assembler.

(** *** Persistence *)

(** The record kept under the key ['main'] of the object store, if any. *)
Definition database := option (list entry).

(** [saveToIndexedDB]; [ok] tells whether the transaction succeeds. *)
Definition saveToIndexedDB (ok : bool) (db : database) : M database :=
  store <- gets conversationEmbeddings ;;
  ret (if ok then Some store else db).

(** [loadFromIndexedDB]; [ok] tells whether the read succeeds. *)
Definition loadFromIndexedDB (ok : bool) (db : database) : M unit :=
  if ok
  then match db with
       | Some embeddings => putStore embeddings
       | None => ret tt
       end
  else ret tt.

(** *** Sessions

    The operations a page performs on the global instance, over its whole
    life: the database outlives a reload, the instance does not. *)

Record session := { instance : manager; stored : database }.

Inductive operation :=
| Add (B : backends) (now : Z) (userMessage aiResponse : jstring)
      (turnIndex : Z) (variables : gameVariables)
| Clear
| SetEmbeddingMethod (method : jstring)
| Configure (count : nat) (threshold : num)
| Retrieve (currentInput : jstring) (recentHistory : list message)
| Build (w : window) (stringify : gameVariables -> jstring)
        (systemPrompt : jstring) (currentVariables : gameVariables)
        (currentInput : jstring) (historyDepth : Z)
        (fullConversationHistory : list message)
| Save (ok : bool)
| Load (ok : bool)
| Reload.

Section Sessions.
Context {host : Host}.

Definition step (s : session) (o : operation) : session :=
  match o with
  | Add B now u a t v =>
      {| instance := exec (addConversation B now u a t v) (instance s);
         stored := stored s |}
  | Clear => {| instance := exec clear (instance s); stored := stored s |}
  | SetEmbeddingMethod method =>
      {| instance := exec (setEmbeddingMethod method) (instance s);
         stored := stored s |}
  | Configure count threshold =>
      {| instance := exec (putConfig count threshold) (instance s);
         stored := stored s |}
  | Retrieve q h =>
      {| instance := exec (retrieveRelevantContext q h) (instance s);
         stored := stored s |}
  | Build w stringify p v q d h =>
      {| instance := exec (buildOptimizedMessages stringify w p v q d h) (instance s);
         stored := stored s |}
  | Save ok =>
      let (db, m) := saveToIndexedDB ok (stored s) (instance s) in
      {| instance := m; stored := db |}
  | Load ok =>
      {| instance := exec (loadFromIndexedDB ok (stored s)) (instance s);
         stored := stored s |}
  | Reload => {| instance := constructor; stored := stored s |}
  end.

Definition run (ops : list operation) (s : session) : session :=
  fold_left step ops s.

(** A first visit: a new instance and no database. *)
Definition firstVisit : session := {| instance := constructor; stored := None |}.

End Sessions.

End Manager.

(** ** The similarity scorer over doubles

    The three scoring methods again (lines 57-126), with the numbers of
    JavaScript: binary64 floating-point numbers, rounded to nearest even at
    every operation.  A dense vector is an array of numbers, a sparse vector
    an object whose own properties are numbers. *)

Module Doubles.

Definition obj := list (jstring * float).

Fixpoint own (o : obj) (k : jstring) : option float :=
  match o with
  | [] => None
  | (k', v) :: rest => if jstring_dec k' k then Some v else own rest k
  end.

(** [Object.keys(o)] *)
Definition keys (o : obj) : list jstring := map fst o.

(** A number is falsy when it is [0], [-0] or [NaN]. *)
Definition truthy (x : float) : bool :=
  (x =? x)%float && negb (x =? 0)%float.

(** [vec[key] || 0] as an operand of the products.  A key that the object
    does not own is read from [Object.prototype]: [undefined] for most keys,
    a function or the prototype itself for the others, and these convert to
    [NaN] in a product. *)
Definition weightOf (vec : obj) (key : jstring) : float :=
  match own vec key with
  | Some v => if truthy v then v else 0%float
  | None =>
      match inherited key with
      | VUndefined => 0%float
      | _ => nan
      end
  end.

(** The three accumulators [dotProduct], [norm1], [norm2]. *)
Definition sums := (float * float * float)%type.

Definition accumulate (acc : sums) (v1 v2 : float) : sums :=
  let '(dotProduct, norm1, norm2) := acc in
  (dotProduct + v1 * v2, norm1 + v1 * v1, norm2 + v2 * v2)%float.

Definition cosine (acc : sums) : float :=
  let '(dotProduct, norm1, norm2) := acc in
  if (norm1 =? 0)%float || (norm2 =? 0)%float then 0%float
  else (dotProduct / (PrimFloat.sqrt norm1 * PrimFloat.sqrt norm2))%float.

Definition calculateObjectCosineSimilarity (vec1 vec2 : obj) : float :=
  let allKeys := new_Set (keys vec1 ++ keys vec2) in
  cosine
    (fold_left
       (fun acc key => accumulate acc (weightOf vec1 key) (weightOf vec2 key))
       allKeys (0, 0, 0)%float).

Definition calculateArrayCosineSimilarity (vec1 vec2 : list float) : float :=
  let len := Nat.min (length vec1) (length vec2) in
  cosine
    (fold_left
       (fun acc i => accumulate acc (nth i vec1 nan) (nth i vec2 nan))
       (seq 0 len) (0, 0, 0)%float).

Inductive jsvec :=
| VecUndefined
| VecNull
| Dense (a : list float)
| Sparse (o : obj).

(** [!vec] and [Array.isArray(vec)] *)
Definition absent (v : jsvec) : bool :=
  match v with VecUndefined | VecNull => true | _ => false end.

Definition isArray (v : jsvec) : bool :=
  match v with Dense _ => true | _ => false end.

Definition calculateCosineSimilarity (vec1 vec2 : jsvec) : float :=
  if absent vec1 || absent vec2 then 0%float
  else if negb (Bool.eqb (isArray vec1) (isArray vec2)) then 0%float
  else
    match vec1, vec2 with
    | Dense a, Dense b => calculateArrayCosineSimilarity a b
    | Sparse a, Sparse b => calculateObjectCosineSimilarity a b
    | _, _ => 0%float (* not reached: both are truthy and of one kind *)
    end.

End Doubles.

Import Manager.

(** A host for closed examples: V8's rendering of built-in functions
    ([Object.prototype.constructor] is the function [Object]), and
    placeholders for the conversions that no example depends on.  Every
    property below is proved for all hosts. *)
Definition exampleHost : Host := {|
  nativeSource := fun name =>
    js "function "
    ++ (if jstring_dec name (js "constructor") then js "Object" else name)
    ++ js "() { [native code] }";
  stringToNumber := fun _ => NaN;
  numberToString := fun _ => js "1";
  toFixed := fun _ _ => js "0.0"
|}.

(** ** Vocabulary of the properties *)

(** A term: a non-empty run of characters of the two classes. *)
Definition term (w : jstring) : Prop :=
  w <> [] /\ Forall (fun c => classify c <> None) w.

(** The terms that [extractKeywords] counts. *)
Definition validTerms (text : jstring) : list jstring :=
  filter (fun w => (1 <? length w)%nat) (matchWords text).

(** A weight that is a positive integer. *)
Definition positiveInteger (v : jsval) : Prop :=
  exists n : Z, (0 < n)%Z /\ v = VNum (Num (IZR n)).

Definition weights (o : obj) : list jsval := map snd o.

(** One input is a dense array and the other a sparse object. *)
Definition mixed (v1 v2 : jsvec) : Prop :=
  match v1, v2 with
  | Dense _, Sparse _ | Sparse _, Dense _ => True
  | _, _ => False
  end.

(** The components of a vector are real numbers that satisfy [P]; the keys
    of a sparse vector do not name properties of [Object.prototype]. *)
Definition components (P : R -> Prop) (v : jsvec) : Prop :=
  match v with
  | Dense a => Forall (fun x => exists r, x = Num r /\ P r) a
  | Sparse o =>
      Forall (fun e => inherited (fst e) = VUndefined
                       /\ exists r, snd e = VNum (Num r) /\ P r) o
  | _ => True
  end.

Definition numeric : jsvec -> Prop := components (fun _ => True).
Definition nonnegative : jsvec -> Prop := components (fun r => 0 <= r).

(** No two turns of the store have the same [turnIndex]. *)
Definition uniqueTurns (store : list entry) : Prop :=
  NoDup (map turnIndex store).

(** A method that leaves the manager as it found it. *)
Definition readonly {A} (c : M A) : Prop := forall m, exec c m = m.

(** Backends that throw, whatever the text. *)
Definition throwingBackends : backends := {|
  remote := fun _ => Throws;
  onDevice := fun _ => Throws
|}.

Section Vocabulary.
Context {host : Host}.

(** The ways in which the backend selected by [method] fails on [text]: the
    awaited call throws, it returns an absent or empty vector, or, for the
    backends of the class itself, the provider is disabled, the request
    fails, or the on-device pipeline yields no features. *)
Definition backendFails (B : backends) (method text : jstring) : Prop :=
  selectBackend B method text = Throws
  \/ (exists v, selectBackend B method text = Returns v /\ invalid v = true)
  \/ (exists w, B = ownBackends w
        /\ ((method = js "api"
             /\ (extraApiConfig_enabled w <> Some true
                 \/ fetchEmbeddings w (substring0 8000 text) = RequestFails))
            \/ (method = js "transformers"
                /\ forall data,
                     runTransformers w (substring0 500 text) <> Features data))).

(** The messages that step 4 of [buildOptimizedMessages] pushes. *)
Definition recentWindow (w : window) (historyDepth : Z)
    (fullConversationHistory : list message) : list message :=
  let conversationHistory :=
    if (0 <? length fullConversationHistory)%nat then fullConversationHistory
    else match gameState_conversationHistory w with
         | Some h => h
         | None => []
         end in
  if (0 <? length conversationHistory)%nat && (0 <? historyDepth)%Z
  then slice_from (- historyDepth * 2) conversationHistory
  else [].

(** The two system messages that open every context. *)
Definition preamble (stringify : gameVariables -> jstring)
    (systemPrompt : jstring) (currentVariables : gameVariables) : list message :=
  [ {| role := js "system"; content := systemPrompt |};
    {| role := js "system";
       content := str_state ++ newline ++ js "```json" ++ newline
                  ++ stringify currentVariables ++ newline ++ js "```" |} ].

(** Descending order of similarity. *)
Definition descending {A} (key : A -> num) (a b : A) : Prop :=
  nge (key a) (key b) = true.

(** Inputs of the closed examples. *)
Definition noVariables : gameVariables := {|
  location := None; realm := None; hp := None; mp := None;
  items := None; relationships := None
|}.

Definition say (who text : string) : message :=
  {| role := js who; content := js text |}.

(** A page whose game state holds one earlier exchange, with no embedding
    provider and no on-device library. *)
Definition playedWindow : window := {|
  extraApiConfig_enabled := None;
  fetchEmbeddings := fun _ => RequestFails;
  runTransformers := fun _ => LibraryUndefined;
  gameState_conversationHistory :=
    Some [say "user" "look around"; say "assistant" "a quiet forest"]
|}.


(** The entries that [extractKeywords] keeps. *)
Definition ranked (text : jstring) : list (jstring * jsval) :=
  firstn 20
    (sort (fun a b => js_sub (snd b) (snd a)) (entries (wordFrequencies text))).

End Vocabulary.

(** ** Vocabulary of the further properties *)

(** A word of one script: not empty, all of its characters in one class. *)
Definition uniform (w : jstring) : Prop :=
  w <> [] /\ exists k, Forall (fun c => classify c = Some k) w.

(** How often a word occurs among the matches of the regular expression. *)
Definition occurrences (words : list jstring) (w : jstring) : nat :=
  count_occ jstring_dec words w.

(** What [wordFreq] holds for [k] once the words [done] are counted, when no
    counted word names a function of [Object.prototype]. *)
Definition counted (done : list jstring) (k : jstring) : option jsval :=
  if ((1 <? length k) && (0 <? occurrences done k))%nat
  then Some (VNum (Num (INR (occurrences done k))))
  else None.

(** The three methods that [setEmbeddingMethod] accepts. *)
Definition knownMethod (method : jstring) : Prop :=
  In method [js "keyword"; js "api"; js "transformers"].

(** A stored turn whose vector is present, is not an empty array, and is
    tagged as what it is. *)
Definition tagged (conv : entry) : Prop :=
  absent (vector conv) = false
  /\ (isArray (vector conv) = true -> size (vector conv) <> 0%nat)
  /\ vectorType conv = if isArray (vector conv) then dense else sparse.

(** Every turn of the instance and of the database is [tagged]. *)
Definition allTagged (s : session) : Prop :=
  Forall tagged (conversationEmbeddings (instance s))
  /\ match stored s with Some db => Forall tagged db | None => True end.

(** Two stored turns that agree on everything the retriever shows, and on
    their vector unless both vectors are dense arrays. *)
Definition alike (c c' : entry) : Prop :=
  turnIndex c = turnIndex c'
  /\ userMessage c = userMessage c'
  /\ aiResponse c = aiResponse c'
  /\ summary c = summary c'
  /\ (vector c = vector c'
      \/ (isArray (vector c) = true /\ isArray (vector c') = true)).

(** A chunk that shows the stored turn [conv]. *)
Definition shows (c : Chunk.t) (conv : entry) : Prop :=
  Chunk.turnIndex c = turnIndex conv
  /\ Chunk.userMessage c = userMessage conv
  /\ Chunk.aiResponse c = aiResponse conv
  /\ Chunk.summary c = summary conv.

(** Two scored turns with the same similarity that yield the same chunk. *)
Definition sameChunk (s s' : Scored.t) : Prop :=
  Scored.similarity s = Scored.similarity s' /\ toChunk s = toChunk s'.

(** A turn kept under [turnIndex] 1 with a dense vector, for the closed
    examples. *)
Definition denseTurn (v : list num) : entry := {|
  turnIndex := 1;
  userMessage := js "enter the forest";
  aiResponse := js "the forest is quiet";
  vector := Dense v;
  vectorType := dense;
  summary := js "forest";
  timestamp := 0;
  variables := {| Important.location := None; Important.realm := None;
                  Important.hp := None; Important.mp := None;
                  Important.hasNewItems := None;
                  Important.hasNewRelationships := None |}
|}.

Definition withStore (store : list entry) : manager := {|
  conversationEmbeddings := store;
  embeddingMethod := js "keyword";
  maxRetrieveCount := 5;
  minSimilarityThreshold := Num (3 / 10)
|}.

(** A text of the closed examples. *)
Definition heroText : jstring := js "hero hero sword".

Section VocabularyMore.
Context {host : Host}.

(** The chunk that the retriever makes of a stored turn for an input; its
    similarity is the score of the turn. *)
Definition chunkOf (currentInput : jstring) (conv : entry) : Chunk.t :=
  toChunk (score (createKeywordVector currentInput) (0%nat, conv)).

(** The stored turns whose score reaches the threshold. *)
Definition passing (currentInput : jstring) (m : manager) : list entry :=
  filter (fun conv => nge (Chunk.similarity (chunkOf currentInput conv))
                          (minSimilarityThreshold m))
    (conversationEmbeddings m).

End VocabularyMore.

(** ** Vocabulary of the properties over doubles *)








(** The accumulators with the two norms exchanged. *)
Definition exchangedDoubles (acc : Doubles.sums) : Doubles.sums :=
  let '(dotProduct, norm1, norm2) := acc in (dotProduct, norm2, norm1).

(** Both calls [f(v1, v2)] and [f(v2, v1)] of the scorer visit the
    components in the same order: always for two arrays, and for two sparse
    objects when the set of all keys is enumerated in the same order from
    either side (the objects list the same keys in the same order, or the
    keys of one are the first keys of the other). *)
Definition sameOrder (v1 v2 : Doubles.jsvec) : Prop :=
  match v1, v2 with
  | Doubles.Sparse a, Doubles.Sparse b =>
      new_Set (Doubles.keys a ++ Doubles.keys b)
      = new_Set (Doubles.keys b ++ Doubles.keys a)
  | _, _ => True
  end.

(** [x] is the double of the integer [n], as [Number(n)] is. *)
Definition integerDouble (x : float) (n : Z) : Prop :=
  Prim2SF x = binary_normalize prec emax n 0 false.

(** The mantissa [n] shifted left by [k] bits, the number of its binary
    digits, and the double of a positive integer below [2^53]: 53 digits of
    mantissa. *)
Definition shiftLeft (n : Pos.t) (k : Z) : Pos.t :=
  match k with Zpos p => Pos.iter xO n p | _ => n end.

Definition digits (n : Pos.t) : Z := Zpos (digits2_pos n).

Definition double_of (n : Pos.t) : spec_float :=
  S754_finite false (shiftLeft n (53 - digits n)) (digits n - 53).

(** A mantissa from which the right shifts have dropped only zeros. *)
Definition exactly (m : Pos.t) : shr_record :=
  {| shr_m := Zpos m; shr_r := false; shr_s := false |}.

(** A sparse object of term counts: entry by entry its weights are the
    doubles of the non-negative integers [counts], no key names a property
    of [Object.prototype], and the squares of the counts sum to less than
    [2^53]. *)
Definition sumSquares (counts : list Z) : Z :=
  fold_right (fun n s => n * n + s)%Z 0%Z counts.

Definition holdsCount (e : jstring * float) (n : Z) : Prop :=
  inherited (fst e) = VUndefined /\ (0 <= n)%Z /\ integerDouble (snd e) n.

Definition countsOf (o : Doubles.obj) (counts : list Z) : Prop :=
  Forall2 holdsCount o counts /\ (sumSquares counts < 2 ^ 53)%Z.

Definition countVector (v : Doubles.jsvec) : Prop :=
  match v with
  | Doubles.Sparse o => exists counts, countsOf o counts
  | _ => False
  end.

(** The count that an object of counts holds for a key, 0 when it has none. *)
Fixpoint countOf (o : Doubles.obj) (counts : list Z) (k : jstring) : Z :=
  match o, counts with
  | (k', _) :: o', n :: counts' =>
      if jstring_dec k' k then n else countOf o' counts' k
  | _, _ => 0%Z
  end.

(** The sum of [f] over a list of keys. *)
Definition total (f : jstring -> Z) (l : list jstring) : Z :=
  fold_right (fun k s => f k + s)%Z 0%Z l.

(** A list of keys without the key [k']. *)
Definition without (k' : jstring) (l : list jstring) : list jstring :=
  filter (fun k => if jstring_dec k' k then false else true) l.

(** The three accumulators are the doubles of three integers. *)
Definition integerSums (acc : Doubles.sums) (z : Z * Z * Z) : Prop :=
  let '(dotProduct, norm1, norm2) := acc in
  let '(d, n1, n2) := z in
  integerDouble dotProduct d /\ integerDouble norm1 n1 /\ integerDouble norm2 n2.


(** * Properties *)

(** ** Objects, sets and sorting *)

Section ObjectFacts.

Lemma define_not_nil o k v : define o k v <> [].
Proof. destruct o as [|[k' v'] o]; simpl; [|destruct jstring_dec]; discriminate. Qed.

Lemma define_length o k v :
  (length o <= length (define o k v) <= S (length o))%nat.
Proof.
  induction o as [|[k' v'] o IH]; simpl; [lia|].
  destruct jstring_dec; simpl; lia.
Qed.

Lemma define_keys o k v :
  forall x, In x (keys (define o k v)) <-> In x (keys o) \/ x = k.
Proof.
  unfold keys. induction o as [|[k' v'] o IH]; simpl; intros x.
  - intuition.
  - destruct jstring_dec as [->|]; simpl; [intuition|].
    rewrite IH. intuition.
Qed.

Lemma set_length o k v :
  (length o <= length (set o k v) <= S (length o))%nat.
Proof.
  unfold set. destruct jstring_dec; [lia|apply define_length].
Qed.

Lemma set_not_nil o k v : k <> js "__proto__" -> set o k v <> [].
Proof.
  unfold set. destruct jstring_dec; [easy|]. intros _. apply define_not_nil.
Qed.

Lemma set_keys o k v :
  forall x, In x (keys (set o k v)) -> In x (keys o) \/ x = k.
Proof.
  unfold set. destruct jstring_dec; [auto|]. intros x. apply define_keys.
Qed.

Lemma own_In o k v : own o k = Some v -> In (k, v) o.
Proof.
  induction o as [|[k0 v0] o IH]; simpl; [discriminate|].
  destruct jstring_dec as [->|]; [intros [= ->]; auto|auto].
Qed.

(** Every value of [define o k v] is [v] or a value of [o]. *)
Lemma define_values (P : jsval -> Prop) o k v :
  P v -> Forall (fun e => P (snd e)) o ->
  Forall (fun e => P (snd e)) (define o k v).
Proof.
  intros Hv. induction 1 as [|[k' v'] o He Ho IH]; simpl.
  - repeat constructor. exact Hv.
  - destruct jstring_dec; constructor; auto.
Qed.

End ObjectFacts.

Lemma firstn_In {A} (n : nat) : forall (l : list A) x,
  In x (firstn n l) -> In x l.
Proof.
  induction n as [|n IH]; intros [|y l] x; simpl; try easy.
  intros [->|Hin]; auto.
Qed.

Section SortFacts.
Context {A : Type} (cmp : A -> A -> num).

Lemma insert_perm x l : Permutation (x :: l) (insert cmp x l).
Proof.
  induction l as [|y l IH]; simpl; [reflexivity|].
  destruct positive; [|reflexivity].
  rewrite perm_swap. now constructor.
Qed.

Lemma sort_perm l : Permutation l (sort cmp l).
Proof.
  induction l as [|x l IH]; simpl; [constructor|].
  rewrite <- insert_perm. now constructor.
Qed.

Lemma sort_length l : length (sort cmp l) = length l.
Proof. symmetry. apply Permutation_length, sort_perm. Qed.

Lemma sort_In l x : In x (sort cmp l) <-> In x l.
Proof.
  split; apply Permutation_in; [symmetry|]; apply sort_perm.
Qed.

End SortFacts.

(** ** Text featurizer *)

Example matchWords_latin :
  matchWords (js "the hero, x2 enters")
  = [js "the"; js "hero"; js "x"; js "enters"].
Proof. reflexivity. Qed.

Example matchWords_cjk :
  matchWords [0x4e2d; 0x6587; 0x61; 0x62; 0x21; 0x9fa5; 0x9fa6]%N
  = [[0x4e2d; 0x6587]; [0x61; 0x62]; [0x9fa5]]%N.
Proof. reflexivity. Qed.

Section FeaturizerFacts.
Context {host : Host}.

Lemma term_snoc w c : classify c <> None -> Forall (fun c => classify c <> None) w ->
  term (w ++ [c]).
Proof.
  intros Hc Hw. split.
  - destruct w; discriminate.
  - apply Forall_app. split; [exact Hw|]. now constructor.
Qed.

Lemma scan_terms text : forall run,
  match run with Some (_, w) => term w | None => True end ->
  Forall term (scan run text).
Proof.
  induction text as [|c rest IH]; intros run Hrun; simpl.
  - destruct run as [[k w]|]; [|constructor].
    constructor; [exact Hrun|constructor].
  - destruct (classify c) as [k|] eqn:Hc.
    + assert (Hone : term [c]).
      { split; [discriminate|]. repeat constructor. congruence. }
      destruct run as [[k' w]|].
      * destruct charClass_eqb.
        -- apply IH. apply term_snoc; [congruence|apply Hrun].
        -- constructor; [exact Hrun|]. now apply IH.
      * now apply IH.
    + destruct run as [[k' w]|].
      * constructor; [exact Hrun|]. now apply IH.
      * now apply IH.
Qed.

Lemma matchWords_terms text : Forall term (matchWords text).
Proof. apply scan_terms. exact I. Qed.

Lemma term_not_proto w : term w -> w <> js "__proto__".
Proof.
  intros [_ Hw] ->. inversion Hw as [|c l Hc _]; subst. now apply Hc.
Qed.

Lemma countWord_length o w : (length o <= length (countWord o w))%nat.
Proof. unfold countWord. destruct (1 <? _)%nat; [apply set_length|lia]. Qed.

Lemma fold_countWord_length ws : forall o,
  (length o <= length (fold_left countWord ws o))%nat.
Proof.
  induction ws as [|w ws IH]; intros o; simpl; [lia|].
  etransitivity; [apply countWord_length|apply IH].
Qed.

Lemma fold_countWord_skip ws : forall o,
  filter (fun w => (1 <? length w)%nat) ws = [] -> fold_left countWord ws o = o.
Proof.
  induction ws as [|w ws IH]; intros o; simpl; [reflexivity|].
  unfold countWord at 2. destruct (1 <? length w)%nat; [discriminate|]. apply IH.
Qed.

Lemma fold_countWord_counts ws : forall o,
  Forall term ws ->
  filter (fun w => (1 <? length w)%nat) ws <> [] ->
  fold_left countWord ws o <> [].
Proof.
  induction ws as [|w ws IH]; intros o Hws Hne; simpl in *; [easy|].
  inversion Hws as [|? ? Hw Hws']; subst.
  destruct (1 <? length w)%nat eqn:Hlen.
  - intros Hnil.
    pose proof (fold_countWord_length ws (countWord o w)) as Hle.
    rewrite Hnil in Hle. unfold countWord in Hle. rewrite Hlen in Hle.
    assert (Hset := set_not_nil o w
      (js_add (js_or (get o w) (VNum (Num 0))) (VNum (Num 1)))
      (term_not_proto w Hw)).
    destruct (set o w _); [easy|simpl in Hle; lia].
  - unfold countWord at 2. rewrite Hlen. now apply IH.
Qed.

Lemma wordFrequencies_nil text :
  wordFrequencies text = [] <-> validTerms text = [].
Proof.
  unfold wordFrequencies, validTerms. split.
  - intros Hnil.
    destruct (filter (fun w => (1 <? length w)%nat) (matchWords text)) eqn:Hf;
      [reflexivity|].
    exfalso. revert Hnil. apply fold_countWord_counts.
    + apply matchWords_terms.
    + rewrite Hf. discriminate.
  - apply fold_countWord_skip.
Qed.

Lemma fold_countWord_keys ws : forall o k,
  In k (keys (fold_left countWord ws o)) -> In k (keys o) \/ In k ws.
Proof.
  induction ws as [|w ws IH]; intros o k; simpl; [auto|].
  intros Hin. apply IH in Hin. destruct Hin as [Hin|Hin]; [|auto].
  unfold countWord in Hin. destruct (1 <? _)%nat; [|auto].
  apply set_keys in Hin. intuition.
Qed.

Lemma wordFrequencies_keys text :
  Forall term (keys (wordFrequencies text)).
Proof.
  apply Forall_forall. intros k Hk.
  apply fold_countWord_keys in Hk. destruct Hk as [[]|Hk].
  pose proof (matchWords_terms text) as Ht.
  rewrite Forall_forall in Ht. now apply Ht.
Qed.

Lemma extractKeywords_ranked text :
  extractKeywords text = map (fun e => {| word := fst e; weight := snd e |}) (ranked text).
Proof. reflexivity. Qed.

Lemma ranked_In text e : In e (ranked text) -> In e (wordFrequencies text).
Proof.
  intros Hin. apply firstn_In in Hin. now apply sort_In in Hin.
Qed.

Lemma extractKeywords_length text :
  length (extractKeywords text) = Nat.min 20 (length (wordFrequencies text)).
Proof.
  unfold extractKeywords. rewrite length_map, length_firstn, sort_length.
  reflexivity.
Qed.

Lemma extractKeywords_terms text :
  Forall (fun k => term (word k)) (extractKeywords text).
Proof.
  rewrite extractKeywords_ranked. apply Forall_map, Forall_forall.
  intros [k v] Hin. simpl. apply ranked_In in Hin.
  pose proof (wordFrequencies_keys text) as Ht. rewrite Forall_forall in Ht.
  apply Ht. unfold keys. now apply (in_map fst) in Hin.
Qed.

Lemma fold_set_length (ks : list keyword) : forall o,
  (length o <= length (fold_left (fun vector k => set vector (word k) (weight k)) ks o)
   <= length o + length ks)%nat.
Proof.
  induction ks as [|k ks IH]; intros o; simpl; [lia|].
  specialize (IH (set o (word k) (weight k))).
  pose proof (set_length o (word k) (weight k)). lia.
Qed.

(** The vector has at most twenty keys. *)
Lemma createKeywordVector_size text :
  (length (keys (createKeywordVector text)) <= 20)%nat.
Proof.
  unfold createKeywordVector, keys. rewrite length_map.
  pose proof (fold_set_length (extractKeywords text) []) as H.
  rewrite extractKeywords_length in H. cbn [length Nat.add] in H. lia.
Qed.

(** The vector is empty exactly when the text has no term of two or more
    characters. *)
Lemma createKeywordVector_nil text :
  createKeywordVector text = [] <-> validTerms text = [].
Proof.
  rewrite <- wordFrequencies_nil. split.
  - intros Hnil.
    destruct (wordFrequencies text) as [|e o] eqn:Hw; [reflexivity|exfalso].
    pose proof (extractKeywords_length text) as Hlen.
    pose proof (extractKeywords_terms text) as Hterms.
    unfold createKeywordVector in Hnil.
    destruct (extractKeywords text) as [|k ks]; [rewrite Hw in Hlen; discriminate|].
    inversion Hterms as [|? ? Hk _]; subst. simpl in Hnil.
    pose proof (fold_set_length ks (set [] (word k) (weight k))) as Hle.
    rewrite Hnil in Hle.
    pose proof (set_not_nil [] (word k) (weight k) (term_not_proto _ Hk)).
    destruct (set [] (word k) (weight k)); [easy|simpl in Hle; lia].
  - intros Hnil. unfold createKeywordVector, extractKeywords.
    rewrite Hnil. reflexivity.
Qed.

End FeaturizerFacts.

Section FeaturizerWeights.
Context {host : Host}.

Lemma positiveInteger_succ v :
  positiveInteger v ->
  positiveInteger (js_add (js_or v (VNum (Num 0))) (VNum (Num 1))).
Proof.
  intros (n & Hn & ->). exists (n + 1)%Z. split; [lia|].
  unfold js_or, js_add. simpl.
  destruct (Req_dec_T (IZR n) 0) as [H0|_].
  - apply eq_IZR_R0 in H0. lia.
  - simpl. now rewrite plus_IZR.
Qed.

Lemma positiveInteger_first :
  positiveInteger (js_add (js_or VUndefined (VNum (Num 0))) (VNum (Num 1))).
Proof.
  exists 1%Z. split; [lia|]. unfold js_or, js_add. simpl.
  do 2 f_equal. lra.
Qed.

Lemma inherited_term w :
  term w -> ~ In w prototypeFunctions -> inherited w = VUndefined.
Proof.
  intros Hw Hn. unfold inherited.
  destruct jstring_dec as [Hp|_]; [now apply term_not_proto in Hp|].
  destruct in_dec; [contradiction|reflexivity].
Qed.

Lemma countWord_weights o w :
  term w -> ~ In w prototypeFunctions ->
  Forall positiveInteger (weights o) ->
  Forall positiveInteger (weights (countWord o w)).
Proof.
  intros Hw Hn Ho. unfold countWord. destruct (1 <? _)%nat; [|exact Ho].
  unfold set. destruct jstring_dec as [Hp|_]; [exact Ho|].
  unfold weights in *. rewrite Forall_map in *.
  apply (define_values positiveInteger); [|exact Ho].
  unfold get. destruct (own o w) as [v|] eqn:Hown.
  - apply positiveInteger_succ. apply own_In in Hown.
    rewrite Forall_forall in Ho. apply (Ho _ Hown).
  - rewrite inherited_term by assumption. apply positiveInteger_first.
Qed.

Lemma fold_countWord_weights ws : forall o,
  Forall term ws -> (forall w, In w ws -> ~ In w prototypeFunctions) ->
  Forall positiveInteger (weights o) ->
  Forall positiveInteger (weights (fold_left countWord ws o)).
Proof.
  induction ws as [|w ws IH]; intros o Hws Hn Ho; simpl; [exact Ho|].
  inversion Hws; subst. apply IH; [assumption|intros; apply Hn; now right|].
  apply countWord_weights; [assumption|apply Hn; now left|exact Ho].
Qed.

Lemma fold_set_weights (P : jsval -> Prop) (ks : list keyword) : forall o,
  Forall (fun k => P (weight k)) ks ->
  Forall P (weights o) ->
  Forall P (weights (fold_left (fun vector k => set vector (word k) (weight k)) ks o)).
Proof.
  induction ks as [|k ks IH]; intros o Hks Ho; simpl; [exact Ho|].
  inversion Hks; subst. apply IH; [assumption|].
  unfold set. destruct jstring_dec; [exact Ho|].
  unfold weights in *. rewrite Forall_map in *.
  now apply (define_values P).
Qed.

(** Unless a term of the text is the name of a function of
    [Object.prototype], every weight is a positive integer. *)
Lemma createKeywordVector_weights text :
  (forall w, In w (matchWords text) -> ~ In w prototypeFunctions) ->
  Forall positiveInteger (weights (createKeywordVector text)).
Proof.
  intros Hn. unfold createKeywordVector.
  apply fold_set_weights; [|constructor].
  rewrite extractKeywords_ranked. apply Forall_map, Forall_forall.
  intros e He. simpl. apply ranked_In in He.
  assert (Hall : Forall positiveInteger (weights (wordFrequencies text))).
  { apply fold_countWord_weights;
      [apply matchWords_terms|exact Hn|constructor]. }
  unfold weights in Hall. rewrite Forall_map, Forall_forall in Hall.
  now apply Hall.
Qed.

(** C9 (code as it is): for the text ["constructor"] the lookup
    [wordFreq[word]] finds the inherited function [Object.prototype.constructor],
    so that [(wordFreq[word] || 0) + 1] is a string concatenation; the vector
    that [createKeywordVector] returns holds that string, not a positive
    integer, as the weight of the term. *)
Theorem createKeywordVector_inherited_name :
  createKeywordVector (js "constructor")
  = [(js "constructor",
      VStr (nativeSource (js "constructor") ++ numberToString (Num 1)))]
  /\ ~ Forall positiveInteger (weights (createKeywordVector (js "constructor"))).
Proof.
  assert (E : createKeywordVector (js "constructor")
              = [(js "constructor",
                  VStr (nativeSource (js "constructor") ++ numberToString (Num 1)))])
    by reflexivity.
  split; [exact E|]. rewrite E. intros H.
  inversion H as [|v l (n & _ & Hv) _]; subst. discriminate Hv.
Qed.

End FeaturizerWeights.

(** ** Similarity scorer *)

Section ScorerFacts.
Context {host : Host}.

(** C4: [calculateCosineSimilarity] returns 0 when an input is [null] or
    [undefined], and when one input is a dense array and the other a sparse
    object; the function is total, no error is raised. *)
Theorem calculateCosineSimilarity_degrades (v1 v2 : jsvec) :
  absent v1 = true \/ absent v2 = true \/ mixed v1 v2 ->
  calculateCosineSimilarity v1 v2 = Num 0.
Proof.
  unfold calculateCosineSimilarity.
  destruct v1, v2; simpl; intros [H|[H|H]];
    try reflexivity; try discriminate H; contradiction H.
Qed.

Lemma fold_set_add l : forall s,
  NoDup s ->
  NoDup (fold_left set_add l s)
  /\ forall x, In x (fold_left set_add l s) <-> In x s \/ In x l.
Proof.
  induction l as [|k l IH]; intros s Hs; simpl.
  - split; [exact Hs|]. intuition.
  - assert (Hadd : NoDup (set_add s k)
                   /\ forall x, In x (set_add s k) <-> In x s \/ x = k).
    { unfold set_add. destruct in_dec as [Hin|Hin].
      - split; [exact Hs|]. intros x. split; [auto|]. intros [H| ->]; auto.
      - split.
        + apply NoDup_app; [exact Hs|repeat constructor; easy|].
          intros x Hx [<-|[]]. contradiction.
        + intros x. rewrite in_app_iff. simpl. intuition. }
    destruct Hadd as [Hnd Hin]. destruct (IH _ Hnd) as [IH1 IH2].
    split; [exact IH1|]. intros x. rewrite IH2, Hin. intuition.
Qed.

Lemma new_Set_NoDup l : NoDup (new_Set l).
Proof. apply fold_set_add. constructor. Qed.

Lemma new_Set_In l x : In x (new_Set l) <-> In x l.
Proof.
  unfold new_Set. destruct (fold_set_add l [] (NoDup_nil _)) as [_ H].
  rewrite H. simpl. intuition.
Qed.

End ScorerFacts.

Section ScorerReals.
Context {host : Host}.

(** The divisor of [cosine] is never zero when it is reached with real
    norms: the guard on the norms excludes it. *)
Lemma divisor_nonzero n1 n2 :
  0 <= n1 -> 0 <= n2 ->
  is_zero (Num n1) || is_zero (Num n2) = false ->
  exists s, nmul (nsqrt (Num n1)) (nsqrt (Num n2)) = Num s /\ s <> 0.
Proof.
  intros H1 H2 Hz. simpl in *.
  destruct (Req_dec_T n1 0); [discriminate|].
  destruct (Req_dec_T n2 0); [discriminate|].
  destruct (Rlt_dec n1 0); [lra|]. destruct (Rlt_dec n2 0); [lra|].
  eexists. split; [reflexivity|].
  assert (0 < sqrt n1) by (apply sqrt_lt_R0; lra).
  assert (0 < sqrt n2) by (apply sqrt_lt_R0; lra).
  nra.
Qed.

Lemma weightOf_real (o : obj) (k : jstring) :
  numeric (Sparse o) -> inherited k = VUndefined ->
  exists r, weightOf o k = Num r /\ (nonnegative (Sparse o) -> 0 <= r).
Proof.
  unfold numeric, nonnegative, weightOf, get. simpl. intros Ho Hk.
  destruct (own o k) as [v|] eqn:Hown.
  - apply own_In in Hown. rewrite Forall_forall in Ho.
    destruct (Ho _ Hown) as (_ & r & Hv & _). simpl in Hv. subst v.
    exists r. split.
    + unfold js_or. simpl. destruct Req_dec_T as [->|]; reflexivity.
    + intros Hnn. rewrite Forall_forall in Hnn.
      destruct (Hnn _ Hown) as (_ & r' & [= <-] & Hr). exact Hr.
  - rewrite Hk. exists 0. split; [|lra].
    unfold js_or. simpl. reflexivity.
Qed.

Lemma keys_inherited (o : obj) (k : jstring) :
  numeric (Sparse o) -> In k (keys o) -> inherited k = VUndefined.
Proof.
  unfold numeric, keys. simpl. intros Ho Hk.
  apply in_map_iff in Hk. destruct Hk as ([k' v] & <- & Hin).
  rewrite Forall_forall in Ho. now destruct (Ho _ Hin).
Qed.

Lemma cosine_Num d n1 n2 :
  0 < n1 -> 0 < n2 ->
  cosine (Num d, Num n1, Num n2) = Num (d / (sqrt n1 * sqrt n2)).
Proof.
  intros H1 H2. simpl.
  destruct (Req_dec_T n1 0); [lra|]. destruct (Req_dec_T n2 0); [lra|].
  destruct (Rlt_dec n1 0); [lra|]. destruct (Rlt_dec n2 0); [lra|]. simpl.
  assert (0 < sqrt n1) by now apply sqrt_lt_R0.
  assert (0 < sqrt n2) by now apply sqrt_lt_R0.
  destruct Req_dec_T; [nra|reflexivity].
Qed.

End ScorerReals.

(** ** Similarity scorer over doubles *)

Section ScorerDoubles.

(** Multiplication of doubles is commutative; addition is not associative,
    and nothing below uses that it were. *)
Lemma doubles_mul_comm (x y : float) : (x * y = y * x)%float.
Proof.
  apply Prim2SF_inj. rewrite !mul_spec.
  destruct (Prim2SF x) as [sx|sx| |sx mx ex], (Prim2SF y) as [sy|sy| |sy my ey];
    cbn; rewrite ?(xorb_comm sx sy); try reflexivity.
  now rewrite (Pos.mul_comm mx my), (Z.add_comm ex ey).
Qed.

Lemma doubles_accumulate_exchanged acc v1 v2 :
  exchangedDoubles (Doubles.accumulate acc v1 v2)
  = Doubles.accumulate (exchangedDoubles acc) v2 v1.
Proof.
  destruct acc as [[d n1] n2]. cbn. now rewrite (doubles_mul_comm v1 v2).
Qed.

Lemma doubles_fold_exchanged {K} (f g : K -> float) (l : list K) : forall acc,
  exchangedDoubles
    (fold_left (fun acc k => Doubles.accumulate acc (f k) (g k)) l acc)
  = fold_left (fun acc k => Doubles.accumulate acc (g k) (f k)) l
      (exchangedDoubles acc).
Proof.
  induction l as [|k l IH]; intros acc; cbn [fold_left]; [reflexivity|].
  now rewrite IH, doubles_accumulate_exchanged.
Qed.

Lemma doubles_cosine_exchanged acc :
  Doubles.cosine (exchangedDoubles acc) = Doubles.cosine acc.
Proof.
  destruct acc as [[d n1] n2]. cbn.
  now rewrite orb_comm, (doubles_mul_comm (PrimFloat.sqrt n2)).
Qed.

Lemma doubles_array_exchange (a b : list float) :
  Doubles.calculateArrayCosineSimilarity a b
  = Doubles.calculateArrayCosineSimilarity b a.
Proof.
  unfold Doubles.calculateArrayCosineSimilarity. cbv zeta.
  rewrite (Nat.min_comm (length b)).
  now rewrite <- doubles_cosine_exchanged, doubles_fold_exchanged.
Qed.

Lemma doubles_object_exchange (a b : Doubles.obj) :
  new_Set (Doubles.keys a ++ Doubles.keys b)
  = new_Set (Doubles.keys b ++ Doubles.keys a) ->
  Doubles.calculateObjectCosineSimilarity a b
  = Doubles.calculateObjectCosineSimilarity b a.
Proof.
  intros Hkeys. unfold Doubles.calculateObjectCosineSimilarity. cbv zeta.
  now rewrite Hkeys, <- doubles_cosine_exchanged, doubles_fold_exchanged.
Qed.

End ScorerDoubles.

(** *** Integers in doubles

    Sums and products of non-negative integers are exact in doubles as long
    as they stay below [2^53]: the rounding of every operation drops only
    zeros. *)

Section IntegerDoubles.
Local Open Scope Z_scope.

(** The number of binary digits, by the logarithm. *)
Lemma digits_log2 p : digits p = Z.log2 (Zpos p) + 1.
Proof.
  unfold digits. induction p as [p IH|p IH|]; cbn [digits2_pos]; try reflexivity.
  - rewrite Pos2Z.inj_succ, IH. destruct p; cbn; lia.
  - rewrite Pos2Z.inj_succ, IH. destruct p; cbn; lia.
Qed.

Lemma iter_xO n p : Zpos (Pos.iter xO n p) = Zpos n * 2 ^ Zpos p.
Proof.
  revert n. induction p using Pos.peano_ind; intros n.
  - cbn. lia.
  - rewrite Pos.iter_succ, Pos2Z.inj_xO, IHp, Pos2Z.inj_succ, Z.pow_succ_r by lia.
    lia.
Qed.

Lemma shiftLeft_Z n k : 0 <= k -> Zpos (shiftLeft n k) = Zpos n * 2 ^ k.
Proof.
  intros Hk. destruct k as [|p|p]; cbn [shiftLeft]; [lia| |lia].
  apply iter_xO.
Qed.

Lemma digits_shiftLeft n k : 0 <= k -> digits (shiftLeft n k) = digits n + k.
Proof.
  intros Hk. rewrite !digits_log2, shiftLeft_Z by exact Hk.
  rewrite Z.log2_mul_pow2 by lia. lia.
Qed.

Lemma digits_mono a b : (a <= b)%positive -> digits a <= digits b.
Proof.
  intros H. rewrite !digits_log2.
  apply Z.add_le_mono_r, Z.log2_le_mono. lia.
Qed.

Lemma shiftLeft_twice n j k :
  0 <= j -> 0 <= k -> shiftLeft (shiftLeft n j) k = shiftLeft n (j + k).
Proof.
  intros Hj Hk. apply Pos2Z.inj. rewrite !shiftLeft_Z by lia.
  rewrite Z.pow_add_r by lia. lia.
Qed.

Lemma shiftLeft_0 n : shiftLeft n 0 = n.
Proof. reflexivity. Qed.

Lemma iter_pos_nat {A} (f : A -> A) p : forall x,
  SpecFloat.iter_pos f p x = Nat.iter (Pos.to_nat p) f x.
Proof.
  induction p as [p IH|p IH|]; intros x; cbn [SpecFloat.iter_pos].
  - rewrite !IH, Pos2Nat.inj_xI.
    replace (S (2 * Pos.to_nat p))%nat
      with (Pos.to_nat p + (Pos.to_nat p + 1))%nat by lia.
    rewrite !Nat.iter_add. reflexivity.
  - rewrite !IH, Pos2Nat.inj_xO.
    replace (2 * Pos.to_nat p)%nat
      with (Pos.to_nat p + Pos.to_nat p)%nat by lia.
    rewrite Nat.iter_add. reflexivity.
  - reflexivity.
Qed.

(** Shifting right what was shifted left drops only zeros. *)
Lemma iter_shr_1 k : forall q,
  Nat.iter k shr_1 (exactly (Nat.iter k xO q)) = exactly q.
Proof.
  induction k as [|k IH]; intros q; [reflexivity|].
  rewrite Nat.iter_succ_r. cbn [Nat.iter].
  change (shr_1 (exactly (xO (Nat.iter k xO q))))
    with (exactly (Nat.iter k xO q)).
  apply IH.
Qed.

Lemma shr_exact q p E : 0 <= p ->
  shr (exactly (shiftLeft q p)) E p = (exactly q, E + p).
Proof.
  intros Hp. destruct p as [|p|p]; cbn [shr shiftLeft]; [f_equal; lia| |lia].
  f_equal. rewrite iter_pos_nat, Pos2Nat.inj_iter. apply iter_shr_1.
Qed.

Lemma fexp_digits (d : Z) : -1021 <= d -> fexp prec emax d = d - 53.
Proof. unfold fexp, emin, prec, emax. lia. Qed.

(** Rounding a mantissa of 53 digits that was shifted left by [p] bits:
    the shift is undone, nothing is rounded. *)
Lemma round_aux_exact q p E :
  digits q = 53 -> 0 <= p -> -1074 <= E + p <= 971 ->
  binary_round_aux prec emax false (Zpos (shiftLeft q p)) E loc_Exact
  = S754_finite false q (E + p).
Proof.
  intros Hq Hp HE. unfold binary_round_aux.
  assert (H1 : shr_fexp prec emax (Zpos (shiftLeft q p)) E loc_Exact
               = (exactly q, E + p)).
  { unfold shr_fexp. cbn [Zdigits2 shr_record_of_loc].
    change (Z.pos (digits2_pos (shiftLeft q p))) with (digits (shiftLeft q p)).
    rewrite digits_shiftLeft, Hq, fexp_digits by lia.
    replace (53 + p + E - 53 - E) with p by lia. now apply shr_exact. }
  rewrite H1. cbn [exactly shr_m loc_of_shr_record round_nearest_even].
  assert (H2 : shr_fexp prec emax (Zpos q) (E + p) loc_Exact
               = (exactly q, E + p)).
  { unfold shr_fexp. cbn [Zdigits2 shr_record_of_loc].
    change (Z.pos (digits2_pos q)) with (digits q).
    rewrite Hq, fexp_digits by lia.
    replace (53 + (E + p) - 53 - (E + p)) with 0 by lia. reflexivity. }
  rewrite H2. cbn [exactly shr_m].
  replace (E + p <=? emax - prec) with true; [reflexivity|].
  symmetry. apply Z.leb_le. unfold emax, prec. lia.
Qed.

Lemma digits_pos n : 1 <= digits n.
Proof. unfold digits. lia. Qed.

Lemma shl_align_le m e e' :
  e' <= e -> shl_align m e e' = (shiftLeft m (e - e'), e').
Proof.
  intros H. unfold shl_align.
  destruct (e' - e) as [|d|d] eqn:Hd; try lia.
  - replace (e - e') with 0 by lia. cbn. f_equal. lia.
  - replace (e - e') with (Zpos d) by lia. reflexivity.
Qed.

Lemma shl_align_ge m e e' : e <= e' -> shl_align m e e' = (m, e).
Proof.
  intros H. unfold shl_align.
  destruct (e' - e) as [|d|d] eqn:Hd; try lia; reflexivity.
Qed.

(** Rounding [n * 2^e] where [m = n << k] and [e = -k]: the value is the
    integer [n]. *)
Lemma binary_round_integer (n : Pos.t) (k : Z) :
  digits n <= 53 -> 0 <= k <= 53 ->
  binary_round prec emax false (shiftLeft n k) (- k) = double_of n.
Proof.
  intros Hn Hk. unfold binary_round.
  change (Z.pos (digits2_pos (shiftLeft n k))) with (digits (shiftLeft n k)).
  pose proof (digits_pos n) as Hd.
  rewrite digits_shiftLeft, fexp_digits by lia.
  replace (digits n + k + - k - 53) with (digits n - 53) by lia.
  destruct (Z_le_gt_dec (digits n - 53) (- k)) as [Hle|Hgt].
  - rewrite shl_align_le by exact Hle.
    rewrite shiftLeft_twice by lia.
    replace (k + (- k - (digits n - 53))) with (53 - digits n) by lia.
    pose proof (round_aux_exact (shiftLeft n (53 - digits n)) 0
                  (digits n - 53)) as H.
    rewrite shiftLeft_0, Z.add_0_r in H. apply H; [|lia|lia].
    rewrite digits_shiftLeft by lia. lia.
  - rewrite shl_align_ge by lia.
    replace (shiftLeft n k)
      with (shiftLeft (shiftLeft n (53 - digits n)) (digits n - 53 + k))
      by (rewrite shiftLeft_twice by lia; f_equal; lia).
    rewrite round_aux_exact; [unfold double_of; f_equal; lia| |lia|lia].
    rewrite digits_shiftLeft by lia. lia.
Qed.

Lemma normalize_integer (n : Pos.t) :
  digits n <= 53 -> binary_normalize prec emax (Zpos n) 0 false = double_of n.
Proof.
  intros Hn. apply (binary_round_integer n 0); [exact Hn|lia].
Qed.

Lemma shiftLeft_add a b k :
  0 <= k -> (shiftLeft a k + shiftLeft b k)%positive = shiftLeft (a + b) k.
Proof.
  intros Hk. apply Pos2Z.inj.
  rewrite Pos2Z.inj_add, !shiftLeft_Z, Pos2Z.inj_add by exact Hk. lia.
Qed.

Lemma shiftLeft_mul a b j k : 0 <= j -> 0 <= k ->
  (shiftLeft a j * shiftLeft b k)%positive = shiftLeft (a * b) (j + k).
Proof.
  intros Hj Hk. apply Pos2Z.inj.
  rewrite Pos2Z.inj_mul, !shiftLeft_Z, Pos2Z.inj_mul, Z.pow_add_r by lia. lia.
Qed.

(** The sum and the product of the doubles of two positive integers are the
    doubles of their sum and product, when these have at most 53 digits. *)
Lemma add_integer (a b : Pos.t) :
  digits (a + b) <= 53 ->
  SFadd prec emax (double_of a) (double_of b) = double_of (a + b).
Proof.
  intros Hd.
  assert (Ha : digits a <= digits (a + b)) by (apply digits_mono; lia).
  assert (Hb : digits b <= digits (a + b)) by (apply digits_mono; lia).
  pose proof (digits_pos a). pose proof (digits_pos b).
  unfold double_of at 1 2. cbn [SFadd cond_Zopp].
  set (ez := Z.min (digits a - 53) (digits b - 53)).
  rewrite !shl_align_le by (unfold ez; lia). cbn [fst].
  rewrite !shiftLeft_twice by (unfold ez; lia).
  replace (53 - digits a + (digits a - 53 - ez)) with (- ez) by lia.
  replace (53 - digits b + (digits b - 53 - ez)) with (- ez) by lia.
  rewrite <- Pos2Z.inj_add, shiftLeft_add by (unfold ez; lia).
  cbn [binary_normalize].
  replace ez with (- - ez) at 2 by lia.
  apply binary_round_integer; [exact Hd|unfold ez; lia].
Qed.

Lemma mul_integer (a b : Pos.t) :
  digits (a * b) <= 53 ->
  SFmul prec emax (double_of a) (double_of b) = double_of (a * b).
Proof.
  intros Hd.
  assert (Ha : digits a <= digits (a * b)) by (apply digits_mono; nia).
  assert (Hb : digits b <= digits (a * b)) by (apply digits_mono; nia).
  pose proof (digits_pos a). pose proof (digits_pos b).
  unfold double_of at 1 2. cbn [SFmul xorb].
  rewrite shiftLeft_mul by lia.
  replace (shiftLeft (a * b) (53 - digits a + (53 - digits b)))
    with (shiftLeft (shiftLeft (a * b) (53 - digits (a * b)))
            (53 + digits (a * b) - digits a - digits b))
    by (rewrite shiftLeft_twice by lia; f_equal; lia).
  rewrite round_aux_exact; [unfold double_of; f_equal; lia| |lia|lia].
  rewrite digits_shiftLeft by lia. lia.
Qed.

Lemma digits_below (n : Pos.t) : Zpos n < 2 ^ 53 -> digits n <= 53.
Proof.
  intros H. rewrite digits_log2.
  assert (Z.log2 (Zpos n) < 53) by (apply Z.log2_lt_pow2; lia). lia.
Qed.

Lemma integerDouble_positive x (n : Pos.t) :
  Zpos n < 2 ^ 53 -> integerDouble x (Zpos n) -> Prim2SF x = double_of n.
Proof.
  intros Hn Hx. unfold integerDouble in Hx. rewrite Hx.
  now apply normalize_integer, digits_below.
Qed.

(** Addition and multiplication of doubles are exact on non-negative
    integers below [2^53]. *)
Lemma integerDouble_add x y a b :
  0 <= a -> 0 <= b -> a + b < 2 ^ 53 ->
  integerDouble x a -> integerDouble y b -> integerDouble (x + y)%float (a + b).
Proof.
  intros Ha Hb Hab Hx Hy. unfold integerDouble in *.
  rewrite add_spec. unfold SF64add. rewrite Hx, Hy.
  destruct a as [|a|a]; [|destruct b as [|b|b]|]; try lia.
  - destruct b as [|b|b]; try lia; [reflexivity|].
    cbn [Z.add]. rewrite normalize_integer by (apply digits_below; lia).
    reflexivity.
  - rewrite Z.add_0_r. rewrite normalize_integer by (apply digits_below; lia).
    reflexivity.
  - rewrite !normalize_integer by (apply digits_below; lia).
    cbn [Z.add]. rewrite normalize_integer by (apply digits_below; lia).
    apply add_integer, digits_below. lia.
Qed.

Lemma integerDouble_mul x y a b :
  0 <= a < 2 ^ 53 -> 0 <= b < 2 ^ 53 -> a * b < 2 ^ 53 ->
  integerDouble x a -> integerDouble y b -> integerDouble (x * y)%float (a * b).
Proof.
  intros Ha Hb Hab Hx Hy. unfold integerDouble in *.
  rewrite mul_spec. unfold SF64mul. rewrite Hx, Hy.
  destruct a as [|a|a]; [|destruct b as [|b|b]|]; try lia.
  - destruct b as [|b|b]; try lia; [reflexivity|].
    cbn [Z.mul]. rewrite normalize_integer by (apply digits_below; lia).
    reflexivity.
  - rewrite Z.mul_0_r. rewrite normalize_integer by (apply digits_below; lia).
    reflexivity.
  - rewrite !normalize_integer by (apply digits_below; lia).
    cbn [Z.mul]. rewrite normalize_integer by (apply digits_below; lia).
    apply mul_integer, digits_below. lia.
Qed.

Lemma integerDouble_inj x y n : integerDouble x n -> integerDouble y n -> x = y.
Proof. unfold integerDouble. intros Hx Hy. apply Prim2SF_inj. congruence. Qed.

Lemma integerDouble_zero : integerDouble 0%float 0.
Proof. reflexivity. Qed.

(** [vec[key] || 0] keeps an integer weight. *)
Lemma truthy_integer x n :
  0 <= n < 2 ^ 53 -> integerDouble x n ->
  integerDouble (if Doubles.truthy x then x else 0%float) n.
Proof.
  intros Hn Hx. destruct n as [|n|n]; try lia.
  - unfold integerDouble in Hx.
    change (binary_normalize prec emax 0 0 false) with (Prim2SF 0%float) in Hx.
    apply Prim2SF_inj in Hx. now subst x.
  - replace (Doubles.truthy x) with true; [exact Hx|].
    unfold Doubles.truthy. rewrite !FloatAxioms.eqb_spec.
    rewrite (integerDouble_positive x n) by (lia || exact Hx).
    change (Prim2SF 0%float) with (S754_zero false).
    unfold double_of, SFeqb. cbn [SFcompare].
    rewrite Z.compare_refl, Pos.compare_cont_refl. reflexivity.
Qed.

Lemma sumSquares_cons n counts :
  sumSquares (n :: counts) = n * n + sumSquares counts.
Proof. reflexivity. Qed.

Lemma sumSquares_nonneg counts : 0 <= sumSquares counts.
Proof.
  induction counts as [|n l IH]; [cbn; lia|]. rewrite sumSquares_cons. nia.
Qed.

Lemma countOf_range o counts k :
  Forall2 holdsCount o counts ->
  0 <= countOf o counts k
  /\ countOf o counts k * countOf o counts k <= sumSquares counts.
Proof.
  induction 1 as [|[k' v] n o counts (_ & Hn & _) _ IH]; [cbn; lia|].
  rewrite sumSquares_cons. cbn [countOf].
  pose proof (sumSquares_nonneg counts).
  destruct jstring_dec; nia.
Qed.

Lemma weightOf_count o counts k :
  countsOf o counts -> inherited k = VUndefined ->
  integerDouble (Doubles.weightOf o k) (countOf o counts k).
Proof.
  intros [Ho Hsum] Hk. unfold Doubles.weightOf.
  induction Ho as [|[k' v] n o counts (_ & Hn & Hv) Ho IH]; cbn.
  - rewrite Hk. exact integerDouble_zero.
  - rewrite sumSquares_cons in Hsum. pose proof (sumSquares_nonneg counts).
    destruct jstring_dec as [_|_].
    + apply truthy_integer; [nia|exact Hv].
    + apply IH. nia.
Qed.

Lemma total_cons f k l : total f (k :: l) = f k + total f l.
Proof. reflexivity. Qed.

Lemma total_perm f l l' : Permutation l l' -> total f l = total f l'.
Proof. induction 1; rewrite ?total_cons; lia. Qed.

Lemma total_ext f g l : (forall k, f k = g k) -> total f l = total g l.
Proof.
  intros H. induction l as [|k l IH]; [reflexivity|].
  now rewrite !total_cons, H, IH.
Qed.

Lemma countOf_cons k' (v : float) n o counts k :
  countOf ((k', v) :: o) (n :: counts) k
  = if jstring_dec k' k then n else countOf o counts k.
Proof. reflexivity. Qed.

Lemma total_without k' (v : float) n o counts l :
  ~ In k' l ->
  total (fun k => countOf ((k', v) :: o) (n :: counts) k
                  * countOf ((k', v) :: o) (n :: counts) k) l
  = total (fun k => countOf o counts k * countOf o counts k) (without k' l).
Proof.
  intros Hk. induction l as [|k l IH]; [reflexivity|].
  rewrite total_cons, countOf_cons. unfold without in *. cbn [filter].
  destruct (jstring_dec k' k) as [->|_].
  - exfalso. apply Hk. now left.
  - rewrite total_cons, IH; [reflexivity|]. intros Hin. apply Hk. now right.
Qed.

Lemma total_head k' (v : float) n o counts l :
  NoDup l -> 0 <= n ->
  total (fun k => countOf ((k', v) :: o) (n :: counts) k
                  * countOf ((k', v) :: o) (n :: counts) k) l
  <= n * n + total (fun k => countOf o counts k * countOf o counts k)
               (without k' l).
Proof.
  intros Hl Hn. induction l as [|k l IH]; [cbn; nia|].
  inversion Hl as [|? ? Hk Hl']; subst. specialize (IH Hl').
  rewrite total_cons, countOf_cons.
  unfold without in *. cbn [filter].
  destruct (jstring_dec k' k) as [->|Hne].
  - pose proof (total_without k v n o counts l Hk) as Hsame.
    unfold without in Hsame. rewrite Hsame. lia.
  - rewrite total_cons. lia.
Qed.

(** Over distinct keys the squares of the counts of an object sum to at
    most [sumSquares]. *)
Lemma total_squares o counts : forall l,
  Forall2 holdsCount o counts -> NoDup l ->
  total (fun k => countOf o counts k * countOf o counts k) l <= sumSquares counts.
Proof.
  intros l Ho. revert l.
  induction Ho as [|[k' v] n o counts (_ & Hn & _) Ho IH]; intros l Hl.
  - clear Hl. induction l as [|k l IHl]; [cbn; lia|].
    rewrite total_cons. cbn [sumSquares fold_right] in *.
    change (countOf [] [] k) with 0. lia.
  - rewrite sumSquares_cons.
    pose proof (total_head k' v n o counts l Hl Hn) as Hhead.
    specialize (IH (without k' l) (NoDup_filter _ Hl)). lia.
Qed.

Lemma fold_integer (f g : jstring -> float) (F G : jstring -> Z) l :
  forall acc d n1 n2,
  (forall k, In k l ->
     0 <= F k < 2 ^ 53 /\ 0 <= G k < 2 ^ 53
     /\ integerDouble (f k) (F k) /\ integerDouble (g k) (G k)) ->
  0 <= d -> 0 <= n1 -> 0 <= n2 ->
  d + total (fun k => F k * G k) l < 2 ^ 53 ->
  n1 + total (fun k => F k * F k) l < 2 ^ 53 ->
  n2 + total (fun k => G k * G k) l < 2 ^ 53 ->
  integerSums acc (d, n1, n2) ->
  integerSums
    (fold_left (fun acc k => Doubles.accumulate acc (f k) (g k)) l acc)
    (d + total (fun k => F k * G k) l,
     n1 + total (fun k => F k * F k) l,
     n2 + total (fun k => G k * G k) l).
Proof.
  induction l as [|k l IH]; intros acc d n1 n2 Hl Hd H1 H2 Bd B1 B2 Hacc.
  - cbn [fold_left total fold_right]. now rewrite !Z.add_0_r.
  - rewrite !total_cons in *. cbn [fold_left].
    destruct (Hl k (or_introl eq_refl)) as (HF & HG & Hf & Hg).
    assert (Htl : forall k', In k' l ->
              0 <= F k' * G k' /\ 0 <= F k' * F k' /\ 0 <= G k' * G k').
    { intros k' Hk'. destruct (Hl k' (or_intror Hk')) as (? & ? & _). nia. }
    assert (T0 : 0 <= total (fun k => F k * G k) l
                 /\ 0 <= total (fun k => F k * F k) l
                 /\ 0 <= total (fun k => G k * G k) l).
    { clear - Htl. induction l as [|k' l IHl]; [cbn; lia|].
      rewrite !total_cons.
      destruct (Htl k' (or_introl eq_refl)) as (? & ? & ?).
      destruct IHl as (? & ? & ?); [intros; apply Htl; now right|]. lia. }
    destruct T0 as (Td & T1 & T2).
    replace (d + (F k * G k + total (fun k => F k * G k) l))
      with ((d + F k * G k) + total (fun k => F k * G k) l) by lia.
    replace (n1 + (F k * F k + total (fun k => F k * F k) l))
      with ((n1 + F k * F k) + total (fun k => F k * F k) l) by lia.
    replace (n2 + (G k * G k + total (fun k => G k * G k) l))
      with ((n2 + G k * G k) + total (fun k => G k * G k) l) by lia.
    apply IH; try nia.
    + intros; apply Hl; now right.
    + destruct acc as [[x y1] y2]. destruct Hacc as (Hx & Hy1 & Hy2).
      cbn [Doubles.accumulate integerSums]. repeat split.
      * apply integerDouble_add; try nia; [exact Hx|].
        apply integerDouble_mul; try nia; assumption.
      * apply integerDouble_add; try nia; [exact Hy1|].
        apply integerDouble_mul; try nia; assumption.
      * apply integerDouble_add; try nia; [exact Hy2|].
        apply integerDouble_mul; try nia; assumption.
Qed.

Lemma allKeys_swap (ka kb : list jstring) :
  Permutation (new_Set (ka ++ kb)) (new_Set (kb ++ ka)).
Proof.
  apply NoDup_Permutation; try apply new_Set_NoDup.
  intros x. rewrite !new_Set_In, !in_app_iff. tauto.
Qed.

Lemma holdsCount_keys o counts k :
  Forall2 holdsCount o counts -> In k (Doubles.keys o) -> inherited k = VUndefined.
Proof.
  induction 1 as [|[k' v] n o counts (Hk & _) _ IH]; cbn; [easy|].
  intros [<-|Hin]; [exact Hk|auto].
Qed.

(** The accumulators of a call on two objects of counts. *)
Lemma object_sums a b ca cb :
  countsOf a ca -> countsOf b cb ->
  let l := new_Set (Doubles.keys a ++ Doubles.keys b) in
  integerSums
    (fold_left
       (fun acc key =>
          Doubles.accumulate acc (Doubles.weightOf a key) (Doubles.weightOf b key))
       l (0, 0, 0)%float)
    (total (fun k => countOf a ca k * countOf b cb k) l,
     total (fun k => countOf a ca k * countOf a ca k) l,
     total (fun k => countOf b cb k * countOf b cb k) l).
Proof.
  intros Ha Hb l.
  assert (Hnd : NoDup l) by apply new_Set_NoDup.
  pose proof (total_squares a ca l (proj1 Ha) Hnd) as Ba.
  pose proof (total_squares b cb l (proj1 Hb) Hnd) as Bb.
  assert (Bd : 2 * total (fun k => countOf a ca k * countOf b cb k) l
               <= total (fun k => countOf a ca k * countOf a ca k) l
                  + total (fun k => countOf b cb k * countOf b cb k) l).
  { clear. induction l as [|k l IH]; [cbn; lia|]. rewrite !total_cons.
    pose proof (Z.square_nonneg (countOf a ca k - countOf b cb k)). lia. }
  destruct Ha as [Ha Sa], Hb as [Hb Sb].
  pose proof (fold_integer (Doubles.weightOf a) (Doubles.weightOf b)
                (countOf a ca) (countOf b cb) l (0, 0, 0)%float 0 0 0) as H.
  rewrite !Z.add_0_l in H. apply H; try lia.
  - intros k Hk. apply new_Set_In, in_app_iff in Hk.
    assert (Hinh : inherited k = VUndefined)
      by (destruct Hk; eauto using holdsCount_keys).
    pose proof (countOf_range a ca k Ha). pose proof (countOf_range b cb k Hb).
    repeat split; try nia; now apply weightOf_count.
  - repeat split; exact integerDouble_zero.
Qed.

Lemma calculateObjectCosineSimilarity_counts a b :
  (exists ca, countsOf a ca) -> (exists cb, countsOf b cb) ->
  Doubles.calculateObjectCosineSimilarity a b
  = Doubles.calculateObjectCosineSimilarity b a.
Proof.
  intros [ca Ha] [cb Hb].
  pose proof (object_sums a b ca cb Ha Hb) as Hab.
  pose proof (object_sums b a cb ca Hb Ha) as Hba.
  cbv zeta in Hab, Hba.
  unfold Doubles.calculateObjectCosineSimilarity. cbv zeta.
  set (l := new_Set (Doubles.keys a ++ Doubles.keys b)) in *.
  set (l' := new_Set (Doubles.keys b ++ Doubles.keys a)) in *.
  assert (Hperm : Permutation l' l) by apply allKeys_swap.
  rewrite !(total_perm _ l' l Hperm) in Hba.
  rewrite (total_ext (fun k => countOf b cb k * countOf a ca k)
             (fun k => countOf a ca k * countOf b cb k)) in Hba
    by (intros; apply Z.mul_comm).
  destruct (fold_left _ l _) as [[d n1] n2].
  destruct (fold_left _ l' _) as [[d' n2'] n1'].
  destruct Hab as (Hd & H1 & H2), Hba as (Hd' & H2' & H1').
  rewrite (integerDouble_inj _ _ _ Hd' Hd), (integerDouble_inj _ _ _ H1' H1),
    (integerDouble_inj _ _ _ H2' H2).
  symmetry. apply (doubles_cosine_exchanged (d, n1, n2)).
Qed.

End IntegerDoubles.

(** *** Symmetry *)

Section ScorerSymmetry.

(** C8 (as amended): [calculateCosineSimilarity(a, b)] and
    [calculateCosineSimilarity(b, a)] return the same value (the same
    double, or [NaN] both times): for every two arrays, of any lengths and
    with any components; for two sparse objects of term counts, as keyword
    vectors are (non-negative integer weights whose squares sum to less than
    [2^53], keys that do not name properties of [Object.prototype]); and for
    two sparse objects whose keys are enumerated in the same order from
    either side.  Absent and mixed pairs give 0 both ways. *)
Theorem calculateCosineSimilarity_symmetric (a b : Doubles.jsvec) :
  sameOrder a b \/ (countVector a /\ countVector b) ->
  Doubles.calculateCosineSimilarity a b = Doubles.calculateCosineSimilarity b a.
Proof.
  intros [Horder|[Ha Hb]].
  - destruct a as [| |x|x], b as [| |y|y]; cbn in *; try reflexivity.
    + apply doubles_array_exchange.
    + now apply doubles_object_exchange.
  - destruct a as [| |x|x], b as [| |y|y]; cbn in Ha, Hb; try contradiction.
    now apply calculateObjectCosineSimilarity_counts.
Qed.

End ScorerSymmetry.

(** *** Signs *)

Section ScorerSigns.



















(** *** Zero norms *)









End ScorerSigns.

(** ** Frame of the read-only methods *)

Section Frame.
Context {host : Host}.

Lemma readonly_ret {A} (a : A) : readonly (ret a).
Proof. intros m. reflexivity. Qed.

Lemma readonly_gets {A} (f : manager -> A) : readonly (gets f).
Proof. intros m. reflexivity. Qed.

Lemma readonly_bind {A B} (c : M A) (k : A -> M B) :
  readonly c -> (forall a, readonly (k a)) -> readonly (bind c k).
Proof.
  intros Hc Hk m. unfold exec, bind.
  specialize (Hc m). unfold exec in Hc.
  destruct (c m) as [a m']. simpl in Hc. subst m'. apply Hk.
Qed.

Lemma readonly_if {A} (b : bool) (c1 c2 : M A) :
  readonly c1 -> readonly c2 -> readonly (if b then c1 else c2).
Proof. now destruct b. Qed.

Ltac frame :=
  repeat first
    [ apply readonly_ret
    | apply readonly_gets
    | apply readonly_if
    | apply readonly_bind; [|intros ?] ].

Lemma retrieveRelevantContext_readonly currentInput recentHistory :
  readonly (retrieveRelevantContext currentInput recentHistory).
Proof. unfold retrieveRelevantContext. frame. Qed.

Lemma buildOptimizedMessages_readonly stringify w p v q d h :
  readonly (buildOptimizedMessages stringify w p v q d h).
Proof.
  unfold buildOptimizedMessages.
  apply readonly_bind; [apply retrieveRelevantContext_readonly|intros r].
  frame.
Qed.

(** C10: [retrieveRelevantContext] and [buildOptimizedMessages] return with
    the store (indeed the whole manager) as it was before the call; of the
    operations of a session only [addConversation], [clear] and
    [loadFromIndexedDB] change the store of an instance, a reload replacing
    the instance by a new one. *)
Theorem store_frame :
  (forall m currentInput recentHistory,
     conversationEmbeddings (exec (retrieveRelevantContext currentInput recentHistory) m)
     = conversationEmbeddings m)
  /\ (forall m stringify w p v q d h,
        conversationEmbeddings (exec (buildOptimizedMessages stringify w p v q d h) m)
        = conversationEmbeddings m)
  /\ (forall s o,
        match o with
        | Add _ _ _ _ _ _ | Clear | Load _ | Reload => True
        | _ => conversationEmbeddings (instance (step s o))
               = conversationEmbeddings (instance s)
        end).
Proof.
  split; [|split].
  - intros. now rewrite retrieveRelevantContext_readonly.
  - intros. now rewrite buildOptimizedMessages_readonly.
  - intros s o. destruct o; simpl; try exact I.
    + unfold setEmbeddingMethod. now destruct in_dec.
    + reflexivity.
    + now rewrite retrieveRelevantContext_readonly.
    + now rewrite buildOptimizedMessages_readonly.
    + reflexivity.
Qed.

End Frame.

(** ** Memory store *)

Section StoreFacts.
Context {host : Host}.

Lemma invalid_Sparse (o : obj) : invalid (Sparse o) = false <-> o <> [].
Proof. unfold invalid, keys. destruct o; simpl; split; easy. Qed.

Lemma vectorize_valid B method text :
  validTerms text <> [] -> invalid (vectorize B method text) = false.
Proof.
  intros Hterms.
  assert (Hkw : invalid (Sparse (createKeywordVector text)) = false).
  { apply invalid_Sparse. now rewrite createKeywordVector_nil. }
  unfold vectorize. destruct selectBackend as [|v]; [exact Hkw|].
  destruct (invalid v) eqn:Hv; [exact Hkw|exact Hv].
Qed.

(** The backends of the class never throw. *)
Lemma ownBackends_return w method text :
  exists v, selectBackend (ownBackends w) method text = Returns v.
Proof.
  unfold selectBackend, ownBackends; simpl.
  unfold getEmbeddingFromAPI, getEmbeddingFromTransformers.
  repeat destruct jstring_dec; eauto.
  - destruct extraApiConfig_enabled as [[]|]; eauto.
    destruct fetchEmbeddings; eauto.
  - destruct runTransformers; eauto.
Qed.

Lemma vectorize_fallback B method text :
  backendFails B method text ->
  vectorize B method text = Sparse (createKeywordVector text).
Proof.
  unfold vectorize.
  intros [Hthrow|[(v & Hret & Hv)|(w & -> & Hown)]].
  - now rewrite Hthrow.
  - now rewrite Hret, Hv.
  - unfold selectBackend, ownBackends; simpl.
    unfold getEmbeddingFromAPI, getEmbeddingFromTransformers.
    destruct Hown as [[-> [Hoff|Hfail]]|[-> Hnone]]; simpl.
    + destruct extraApiConfig_enabled as [[]|];
        [congruence| |]; now destruct invalid.
    + rewrite Hfail. destruct extraApiConfig_enabled as [[]|];
        now destruct invalid.
    + destruct runTransformers as [| |data];
        [now destruct invalid..|now destruct (Hnone data)].
Qed.

Lemma addConversation_store B now u a t vars m :
  conversationEmbeddings (exec (addConversation B now u a t vars) m)
  = match findIndex (fun conv => (turnIndex conv =? t)%Z)
            (conversationEmbeddings m) with
    | Some i => splice1 i (conversationEmbeddings m)
    | None => conversationEmbeddings m
    end ++ [newEntry B (embeddingMethod m) now u a t vars].
Proof. reflexivity. Qed.

(** C1 (as amended): when the combined text of the turn has a term of two
    or more characters, and none of its terms names a function of
    [Object.prototype], [addConversation] stores a usable vector under every
    [embeddingMethod] and whatever the backends do: the vector of the stored
    turn is present and non-empty, and it is either the vector that the
    selected backend returned or the sparse keyword vector of the text,
    which is non-empty and whose weights are all positive integers; when the
    selected backend fails, it is that keyword vector. *)
Theorem addConversation_vector B now u a t vars m :
  validTerms (u ++ newline ++ a) <> [] ->
  (forall w, In w (matchWords (u ++ newline ++ a)) -> ~ In w prototypeFunctions) ->
  exists older conv,
    conversationEmbeddings (exec (addConversation B now u a t vars) m)
    = older ++ [conv]
    /\ turnIndex conv = t
    /\ invalid (vector conv) = false
    /\ (vector conv = Sparse (createKeywordVector (u ++ newline ++ a))
        \/ selectBackend B (embeddingMethod m) (u ++ newline ++ a)
           = Returns (vector conv))
    /\ createKeywordVector (u ++ newline ++ a) <> []
    /\ Forall positiveInteger (weights (createKeywordVector (u ++ newline ++ a)))
    /\ (backendFails B (embeddingMethod m) (u ++ newline ++ a) ->
        vector conv = Sparse (createKeywordVector (u ++ newline ++ a))).
Proof.
  intros Hterms Hnames. rewrite addConversation_store.
  eexists _, _. split; [reflexivity|]. simpl.
  split; [reflexivity|]. split; [now apply vectorize_valid|].
  split.
  { unfold vectorize. destruct selectBackend as [|v]; [now left|].
    destruct (invalid v); [now left|now right]. }
  split; [now rewrite createKeywordVector_nil|].
  split; [now apply createKeywordVector_weights|].
  intros Hfail. now apply vectorize_fallback.
Qed.

Lemma findIndex_None {A} (p : A -> bool) (l : list A) :
  findIndex p l = None -> Forall (fun x => p x = false) l.
Proof.
  induction l as [|x l IH]; simpl; [constructor|].
  destruct (p x) eqn:Hx; [discriminate|].
  destruct (findIndex p l); [discriminate|]. auto.
Qed.

Lemma findIndex_Some {A} (p : A -> bool) (l : list A) : forall i,
  findIndex p l = Some i ->
  exists l1 x l2,
    l = l1 ++ x :: l2 /\ length l1 = i /\ p x = true
    /\ Forall (fun y => p y = false) l1.
Proof.
  induction l as [|x l IH]; simpl; intros i; [discriminate|].
  destruct (p x) eqn:Hx.
  - intros [= <-]. now exists [], x, l.
  - destruct (findIndex p l) as [j|]; [|discriminate].
    intros [= <-]. destruct (IH j eq_refl) as (l1 & y & l2 & -> & <- & Hy & Hl1).
    exists (x :: l1), y, l2. repeat split; auto.
Qed.

Lemma splice1_app {A} (l1 : list A) x l2 :
  splice1 (length l1) (l1 ++ x :: l2) = l1 ++ l2.
Proof.
  unfold splice1. induction l1 as [|y l1 IH]; simpl; [reflexivity|].
  f_equal. exact IH.
Qed.

Lemma filter_none (t : Z) (l : list entry) :
  ~ In t (map turnIndex l) ->
  filter (fun c => negb (turnIndex c =? t)%Z) l = l.
Proof.
  induction l as [|x l IH]; cbn [filter map]; [reflexivity|]. intros Hn.
  destruct (Z.eqb_spec (turnIndex x) t) as [Heq|_]; cbn [negb].
  - exfalso. apply Hn. now left.
  - rewrite IH; [reflexivity|]. intros H. apply Hn. now right.
Qed.

(** What an upsert does to a store with unique turns. *)
Lemma addConversation_upsert B now u a t vars m :
  uniqueTurns (conversationEmbeddings m) ->
  conversationEmbeddings (exec (addConversation B now u a t vars) m)
  = filter (fun c => negb (turnIndex c =? t)%Z) (conversationEmbeddings m)
    ++ [newEntry B (embeddingMethod m) now u a t vars].
Proof.
  intros Huniq. rewrite addConversation_store. f_equal.
  destruct (findIndex _ _) as [i|] eqn:Hfind.
  - apply findIndex_Some in Hfind.
    destruct Hfind as (l1 & x & l2 & Hstore & <- & Hx & _).
    apply Z.eqb_eq in Hx. unfold uniqueTurns in Huniq.
    rewrite Hstore in *. rewrite splice1_app.
    rewrite map_app in Huniq. simpl in Huniq.
    apply NoDup_remove in Huniq. destruct Huniq as [_ Hnot].
    rewrite in_app_iff in Hnot. rewrite <- Hx.
    rewrite filter_app. cbn [filter]. rewrite Z.eqb_refl. cbn [negb].
    rewrite !filter_none; tauto.
  - apply findIndex_None in Hfind. symmetry. apply filter_none.
    rewrite Forall_forall in Hfind. intros Hin.
    apply in_map_iff in Hin. destruct Hin as (x & Hx & Hin).
    apply Hfind in Hin. apply Z.eqb_neq in Hin. contradiction.
Qed.

Lemma filter_unique (t : Z) (l : list entry) :
  uniqueTurns l ->
  uniqueTurns (filter (fun c => negb (turnIndex c =? t)%Z) l)
  /\ ~ In t (map turnIndex (filter (fun c => negb (turnIndex c =? t)%Z) l)).
Proof.
  unfold uniqueTurns. induction l as [|x l IH]; cbn [filter map]; intros Hl.
  - split; [constructor|easy].
  - inversion Hl as [|? ? Hx Hl']; subst. destruct (IH Hl') as [IH1 IH2].
    destruct (Z.eqb_spec (turnIndex x) t) as [Heq|Hne]; cbn [negb map];
      [easy|].
    split.
    + constructor; [|exact IH1]. intros Hin. apply Hx.
      apply in_map_iff in Hin. destruct Hin as (y & Hy & Hin).
      apply filter_In in Hin. apply in_map_iff. exists y. tauto.
    + intros [H|H]; [congruence|contradiction].
Qed.




Lemma findIndex_absent (t : Z) (store : list entry) :
  ~ In t (map turnIndex store) ->
  findIndex (fun conv => (turnIndex conv =? t)%Z) store = None.
Proof.
  intros Hn. destruct (findIndex _ store) as [i|] eqn:Hfind; [|reflexivity].
  apply findIndex_Some in Hfind.
  destruct Hfind as (l1 & x & l2 & -> & _ & Hx & _).
  apply Z.eqb_eq in Hx. exfalso. apply Hn.
  rewrite map_app, in_app_iff. right. now left.
Qed.


(** A call that runs to its end is its two parts, one after the other. *)
Lemma addConversation_parts B now u a t vars m :
  addConversation B now u a t vars m
  = (method <- addConversation_until_await t ;;
     addConversation_after_await B method now u a t vars) m.
Proof. reflexivity. Qed.

Lemma removed_first (t : Z) (store : list entry) :
  uniqueTurns store ->
  match findIndex (fun conv => (turnIndex conv =? t)%Z) store with
  | Some i => splice1 i store
  | None => store
  end
  = filter (fun c => negb (turnIndex c =? t)%Z) store.
Proof.
  intros Huniq.
  pose proof (addConversation_upsert throwingBackends 0 [] [] t
                {| location := None; realm := None; hp := None; mp := None;
                   items := None; relationships := None |}
                {| conversationEmbeddings := store;
                   embeddingMethod := [];
                   maxRetrieveCount := 0;
                   minSimilarityThreshold := NaN |} Huniq) as H.
  rewrite addConversation_store in H. cbn [conversationEmbeddings] in H.
  now apply app_inv_tail in H.
Qed.

(** Two overlapping calls for one [turnIndex], on a store with distinct
    [turnIndex] values: the first part of the second call finds nothing to
    remove, and both calls push. *)
Lemma overlappingCalls_store B now1 now2 u1 a1 u2 a2 t vars m :
  uniqueTurns (conversationEmbeddings m) ->
  conversationEmbeddings
    (exec (overlappingCalls B now1 now2 u1 a1 u2 a2 t vars) m)
  = filter (fun c => negb (turnIndex c =? t)%Z) (conversationEmbeddings m)
    ++ [newEntry B (embeddingMethod m) now1 u1 a1 t vars;
        newEntry B (embeddingMethod m) now2 u2 a2 t vars].
Proof.
  intros Huniq.
  unfold overlappingCalls, addConversation_until_await,
    addConversation_after_await, exec, bind, gets, putStore.
  cbn [fst snd conversationEmbeddings embeddingMethod].
  rewrite (removed_first t _ Huniq).
  rewrite findIndex_absent by apply (filter_unique t _ Huniq).
  now rewrite <- app_assoc.
Qed.


End StoreFacts.

(** ** Retriever *)

Section SortedFacts.
Context {A : Type} (key : A -> num).

Lemma insert_descending x l :
  (exists r, key x = Num r) ->
  Forall (fun a => exists r, key a = Num r) l ->
  StronglySorted (descending key) l ->
  StronglySorted (descending key)
    (insert (fun a b => nsub (key b) (key a)) x l).
Proof.
  intros [rx Hx] Hl Hs. induction Hs as [|y l Hs IH Hy]; simpl.
  - repeat constructor.
  - inversion Hl as [|? ? [ry Hry] Hl']; subst.
    rewrite Hx, Hry. simpl.
    destruct (Rlt_dec 0 (ry - rx)) as [Hgt|Hle].
    + constructor; [now apply IH|].
      apply (Permutation_Forall (insert_perm _ x l)).
      constructor; [|exact Hy].
      unfold descending. rewrite Hx, Hry. simpl.
      destruct Rle_dec; [reflexivity|lra].
    + constructor; [now constructor|].
      assert (Hxy : descending key x y).
      { unfold descending. rewrite Hx, Hry. simpl.
        destruct Rle_dec; [reflexivity|lra]. }
      constructor; [exact Hxy|].
      rewrite Forall_forall in Hy |- *. intros z Hz.
      specialize (Hy z Hz). unfold descending in *.
      rewrite Hx. rewrite Hry in Hy.
      destruct (key z) as [|rz]; simpl in *; [discriminate|].
      destruct (Rle_dec rz ry); [|discriminate].
      destruct Rle_dec; [reflexivity|lra].
Qed.

Lemma sort_descending l :
  Forall (fun a => exists r, key a = Num r) l ->
  StronglySorted (descending key)
    (sort (fun a b => nsub (key b) (key a)) l).
Proof.
  induction 1 as [|x l Hx Hl IH]; simpl; [constructor|].
  apply insert_descending; [exact Hx| |exact IH].
  apply (Permutation_Forall (sort_perm _ l)), Hl.
Qed.

End SortedFacts.

Lemma firstn_Forall {A} (P : A -> Prop) n : forall l,
  Forall P l -> Forall P (firstn n l).
Proof.
  induction n as [|n IH]; intros l Hl; simpl; [constructor|].
  destruct Hl; constructor; auto.
Qed.

Lemma firstn_StronglySorted {A} (R : A -> A -> Prop) n : forall l,
  StronglySorted R l -> StronglySorted R (firstn n l).
Proof.
  induction n as [|n IH]; intros l Hl; simpl; [constructor|].
  destruct Hl as [|x l Hl Hx]; constructor; auto using firstn_Forall.
Qed.

Lemma map_StronglySorted {A B} (f : A -> B) (R : B -> B -> Prop) l :
  StronglySorted (fun a b => R (f a) (f b)) l -> StronglySorted R (map f l).
Proof.
  induction 1 as [|x l Hl IH Hx]; simpl; constructor; [exact IH|].
  now apply Forall_map.
Qed.

Section RetrieverFacts.
Context {host : Host}.

Lemma retrieveRelevantContext_eval currentInput recentHistory m :
  eval (retrieveRelevantContext currentInput recentHistory) m
  = let store := conversationEmbeddings m in
    let currentVector := createKeywordVector currentInput in
    if ((length store =? 0) || (length (keys currentVector) =? 0))%nat
    then {| relevantChunks := []; recentChunks := recentHistory |}
    else
      {| relevantChunks :=
           map toChunk
             (firstn (maxRetrieveCount m)
                (sort (fun a b => nsub (Scored.similarity b) (Scored.similarity a))
                   (filter (fun item => nge (Scored.similarity item)
                                            (minSimilarityThreshold m))
                      (map (score currentVector)
                         (combine (seq 0 (length store)) store)))));
         recentChunks := recentHistory |}.
Proof.
  unfold eval, retrieveRelevantContext, bind, gets, ret. cbn [fst].
  destruct (length (conversationEmbeddings m) =? 0)%nat; [reflexivity|].
  cbn [orb].
  destruct (length (keys (createKeywordVector currentInput)) =? 0)%nat;
    reflexivity.
Qed.

(** C2: the relevant chunks are at most [maxRetrieveCount], each has a
    similarity of at least [minSimilarityThreshold], and they come in
    descending order of similarity. *)
Theorem retrieveRelevantContext_relevantChunks m currentInput recentHistory :
  let chunks :=
    relevantChunks (eval (retrieveRelevantContext currentInput recentHistory) m) in
  (length chunks <= maxRetrieveCount m)%nat
  /\ Forall (fun c => nge (Chunk.similarity c) (minSimilarityThreshold m) = true)
       chunks
  /\ StronglySorted (descending Chunk.similarity) chunks.
Proof.
  rewrite retrieveRelevantContext_eval. cbv zeta.
  destruct (_ || _)%bool; cbn [relevantChunks].
  { repeat split; [simpl; lia|constructor|constructor]. }
  set (similarities := map _ (combine _ _)).
  set (kept := filter _ similarities).
  assert (Hkept : Forall (fun item => nge (Scored.similarity item)
                                          (minSimilarityThreshold m) = true) kept).
  { apply Forall_forall. intros item Hin. now apply filter_In in Hin. }
  assert (Hreal : Forall (fun item => exists r, Scored.similarity item = Num r) kept).
  { eapply Forall_impl; [|exact Hkept]. intros item H. cbn beta in H.
    destruct (Scored.similarity item) as [|r]; [discriminate H|eauto]. }
  split; [|split].
  - rewrite length_map. apply firstn_le_length.
  - apply Forall_map, firstn_Forall.
    apply (Permutation_Forall (sort_perm _ kept)). exact Hkept.
  - apply map_StronglySorted, firstn_StronglySorted.
    apply (sort_descending Scored.similarity), Hreal.
Qed.

End RetrieverFacts.

(** ** Context assembler *)

Section AssemblerFacts.
Context {host : Host}.

Lemma buildOptimizedMessages_eval stringify w p v q d h m :
  eval (buildOptimizedMessages stringify w p v q d h) m
  = preamble stringify p v
    ++ memoryMessage (relevantChunks (eval (retrieveRelevantContext q []) m))
    ++ recentWindow w d h
    ++ [ {| role := js "user"; content := q |} ].
Proof.
  unfold eval, buildOptimizedMessages, bind, recentWindow, preamble.
  destruct (retrieveRelevantContext q [] m) as [r m']. cbn [fst ret].
  destruct (_ && _)%bool; now rewrite <- ?app_assoc, ?app_nil_l.
Qed.

Lemma memoryMessage_shape chunks :
  memoryMessage chunks = []
  \/ exists text, memoryMessage chunks = [ {| role := js "system"; content := text |} ].
Proof. unfold memoryMessage. destruct (0 <? _)%nat; eauto. Qed.

Lemma recentWindow_last w (older recent : list message) :
  length older = 6%nat -> length recent = 4%nat ->
  recentWindow w 2 (older ++ recent) = recent.
Proof.
  intros Ho Hr.
  assert (Hlen : length (older ++ recent) = 10%nat)
    by (rewrite length_app; lia).
  unfold recentWindow, slice_from. cbv zeta. rewrite Hlen. cbn [Nat.ltb Nat.leb].
  rewrite Hlen. change (skipn 6 (older ++ recent) = recent).
  rewrite <- Ho. rewrite skipn_app, skipn_all, Nat.sub_diag. reflexivity.
Qed.

(** C6: with [historyDepth = 2] and a history of ten messages, the context
    holds the last four messages of the history, in their order, after the
    message of retrieved memories (if there is one) and before the final
    user message that carries the input; before them come only the two
    opening system messages and that memory message. *)
Theorem buildOptimizedMessages_recent_window
    m stringify w p v q (older recent : list message) :
  length older = 6%nat -> length recent = 4%nat ->
  exists memory,
    eval (buildOptimizedMessages stringify w p v q 2 (older ++ recent)) m
    = preamble stringify p v ++ memory ++ recent
      ++ [ {| role := js "user"; content := q |} ]
    /\ (memory = []
        \/ exists text, memory = [ {| role := js "system"; content := text |} ]).
Proof.
  intros Ho Hr. eexists. rewrite buildOptimizedMessages_eval.
  split; [|apply memoryMessage_shape].
  now rewrite recentWindow_last.
Qed.

(** C7 (as amended): the recent window is left out whenever [historyDepth]
    is 0 (or negative), and whenever the history passed in is empty and
    [window.gameState] has no history or an empty one. *)
Theorem buildOptimizedMessages_no_window m stringify w p v q d h :
  (d <= 0)%Z
  \/ (h = [] /\ (gameState_conversationHistory w = None
                \/ gameState_conversationHistory w = Some [])) ->
  eval (buildOptimizedMessages stringify w p v q d h) m
  = preamble stringify p v
    ++ memoryMessage (relevantChunks (eval (retrieveRelevantContext q []) m))
    ++ [ {| role := js "user"; content := q |} ].
Proof.
  intros Hcase. rewrite buildOptimizedMessages_eval. do 2 f_equal.
  assert (Hw : recentWindow w d h = []); [|now rewrite Hw].
  unfold recentWindow. destruct Hcase as [Hd|[-> Hg]].
  - apply Z.ltb_ge in Hd. rewrite Hd. now rewrite andb_false_r.
  - simpl. now destruct Hg as [-> | ->].
Qed.

End AssemblerFacts.

(** * Closed examples *)


(** On V8 the vector of the text ["constructor"] is
    [{constructor: "function Object() { [native code] }1"}]. *)
Example createKeywordVector_constructor_v8 :
  createKeywordVector (host := exampleHost) (js "constructor")
  = [(js "constructor", VStr (js "function Object() { [native code] }1"))].
Proof. reflexivity. Qed.

(** C1, counterexample: the combined text ["42\n7"] is not empty, yet with a
    backend that throws the turn is stored with the empty sparse vector,
    which the validity test of [addConversation] itself rejects. *)
Lemma addConversation_empty_vector :
  let m := exec (setEmbeddingMethod (js "api")) constructor in
  let m' := exec (addConversation (host := exampleHost) throwingBackends 0
                    (js "42") (js "7") 1 noVariables) m in
  js "42" ++ newline ++ js "7" <> []
  /\ selectBackend (host := exampleHost) throwingBackends (embeddingMethod m)
       (js "42" ++ newline ++ js "7") = Throws
  /\ map vector (conversationEmbeddings m') = [Sparse []]
  /\ invalid (Sparse []) = true.
Proof. repeat split. discriminate. Qed.

Lemma addConversation_vector_witness :
  validTerms (js "hero" ++ newline ++ js "ok") <> []
  /\ (forall w, In w (matchWords (js "hero" ++ newline ++ js "ok")) ->
                ~ In w prototypeFunctions)
  /\ exists older conv,
       conversationEmbeddings
         (exec (addConversation (host := exampleHost) throwingBackends 0
                  (js "hero") (js "ok") 1 noVariables)
            (exec (setEmbeddingMethod (js "api")) constructor))
       = older ++ [conv]
       /\ turnIndex conv = 1%Z
       /\ invalid (vector conv) = false
       /\ (vector conv
           = Sparse (createKeywordVector (host := exampleHost)
                       (js "hero" ++ newline ++ js "ok"))
           \/ selectBackend (host := exampleHost) throwingBackends (js "api")
                (js "hero" ++ newline ++ js "ok")
              = Returns (vector conv))
       /\ createKeywordVector (host := exampleHost)
            (js "hero" ++ newline ++ js "ok") <> []
       /\ Forall positiveInteger
            (weights (createKeywordVector (host := exampleHost)
                        (js "hero" ++ newline ++ js "ok")))
       /\ (backendFails (host := exampleHost) throwingBackends (js "api")
             (js "hero" ++ newline ++ js "ok") ->
           vector conv
           = Sparse (createKeywordVector (host := exampleHost)
                       (js "hero" ++ newline ++ js "ok"))).
Proof.
  assert (H : validTerms (js "hero" ++ newline ++ js "ok") <> [])
    by (vm_compute; discriminate).
  assert (Hnames : forall w,
             In w (matchWords (js "hero" ++ newline ++ js "ok")) ->
             ~ In w prototypeFunctions).
  { intros w Hw. vm_compute in Hw. destruct Hw as [<-|[<-|[]]];
      intros Hin; vm_compute in Hin;
      repeat (destruct Hin as [Hin|Hin]; [discriminate Hin|]); exact Hin. }
  split; [exact H|]. split; [exact Hnames|].
  exact (addConversation_vector (host := exampleHost) throwingBackends 0
           (js "hero") (js "ok") 1%Z noVariables
           (exec (setEmbeddingMethod (js "api")) constructor) H Hnames).
Defined.



Lemma calculateCosineSimilarity_degrades_witness :
  mixed (Dense [Num 1]) (Sparse [(js "hero", VNum (Num 1))])
  /\ calculateCosineSimilarity (host := exampleHost)
       (Dense [Num 1]) (Sparse [(js "hero", VNum (Num 1))]) = Num 0
  /\ calculateCosineSimilarity (host := exampleHost)
       VecNull (Dense [Num 1]) = Num 0.
Proof.
  split; [exact I|]. split.
  - apply (calculateCosineSimilarity_degrades (host := exampleHost)).
    right. right. exact I.
  - apply (calculateCosineSimilarity_degrades (host := exampleHost)).
    left. reflexivity.
Defined.

Set Warnings "-inexact-float".



(** C8, counterexample: with [a = {x: 17.6, y: 89.6, z: 71.2}] and
    [b = {z: 49.6, y: 21.6, x: 92}] the two calls add the same products in
    different orders, and return [0.5734015037003762] and
    [0.5734015037003761]. *)
Lemma calculateCosineSimilarity_asymmetric :
  let a := Doubles.Sparse [(js "x", 17.6%float); (js "y", 89.6%float);
                           (js "z", 71.2%float)] in
  let b := Doubles.Sparse [(js "z", 49.6%float); (js "y", 21.6%float);
                           (js "x", 92%float)] in
  Doubles.calculateCosineSimilarity a b = 0.5734015037003762%float
  /\ Doubles.calculateCosineSimilarity b a = 0.5734015037003761%float
  /\ (Doubles.calculateCosineSimilarity a b
      =? Doubles.calculateCosineSimilarity b a)%float = false.
Proof. repeat split. Qed.

Lemma calculateCosineSimilarity_symmetric_witness :
  let a := Doubles.Sparse [(js "hero", 2%float); (js "sword", 1%float)] in
  let b := Doubles.Sparse [(js "sword", 3%float); (js "dragon", 1%float);
                           (js "hero", 1%float)] in
  (sameOrder a b \/ (countVector a /\ countVector b))
  /\ Doubles.calculateCosineSimilarity a b
     = Doubles.calculateCosineSimilarity b a.
Proof.
  intros a b.
  assert (Ha : countVector a).
  { exists [2; 1]%Z. split; [|reflexivity].
    repeat constructor; discriminate. }
  assert (Hb : countVector b).
  { exists [3; 1; 1]%Z. split; [|reflexivity].
    repeat constructor; discriminate. }
  split; [right; now split|].
  exact (calculateCosineSimilarity_symmetric a b (or_intror (conj Ha Hb))).
Defined.

Lemma buildOptimizedMessages_recent_window_witness :
  let older := [say "user" "1"; say "assistant" "2"; say "user" "3";
                say "assistant" "4"; say "user" "5"; say "assistant" "6"] in
  let recent := [say "user" "7"; say "assistant" "8"; say "user" "9";
                 say "assistant" "10"] in
  length older = 6%nat /\ length recent = 4%nat
  /\ exists memory,
       eval (buildOptimizedMessages (host := exampleHost) (fun _ => js "{}")
               playedWindow (js "narrate") noVariables (js "go on") 2
               (older ++ recent)) constructor
       = preamble (fun _ => js "{}") (js "narrate") noVariables ++ memory
         ++ recent ++ [ {| role := js "user"; content := js "go on" |} ]
       /\ (memory = []
           \/ exists text,
                memory = [ {| role := js "system"; content := text |} ]).
Proof.
  intros older recent. split; [reflexivity|]. split; [reflexivity|].
  exact (buildOptimizedMessages_recent_window (host := exampleHost) constructor
           (fun _ => js "{}") playedWindow (js "narrate") noVariables
           (js "go on") older recent eq_refl eq_refl).
Defined.

(** C7, counterexample: with an empty history argument and
    [historyDepth = 1] the window is not left out: it is taken from
    [window.gameState.conversationHistory]. *)
Lemma buildOptimizedMessages_window_from_gameState :
  eval (buildOptimizedMessages (host := exampleHost) (fun _ => js "{}")
          playedWindow (js "narrate") noVariables (js "go on") 1 []) constructor
  = preamble (fun _ => js "{}") (js "narrate") noVariables
    ++ [say "user" "look around"; say "assistant" "a quiet forest"]
    ++ [ {| role := js "user"; content := js "go on" |} ].
Proof. reflexivity. Qed.

Lemma buildOptimizedMessages_no_window_witness :
  ((0 <= 0)%Z
   \/ (@nil message = []
       /\ (gameState_conversationHistory playedWindow = None
           \/ gameState_conversationHistory playedWindow = Some [])))
  /\ eval (buildOptimizedMessages (host := exampleHost) (fun _ => js "{}")
             playedWindow (js "narrate") noVariables (js "go on") 0 []) constructor
     = preamble (fun _ => js "{}") (js "narrate") noVariables
       ++ memoryMessage (host := exampleHost)
            (relevantChunks
               (eval (retrieveRelevantContext (host := exampleHost) (js "go on") [])
                  constructor))
       ++ [ {| role := js "user"; content := js "go on" |} ].
Proof.
  assert (H : (0 <= 0)%Z
              \/ (@nil message = []
                  /\ (gameState_conversationHistory playedWindow = None
                      \/ gameState_conversationHistory playedWindow = Some [])))
    by (left; lia).
  split; [exact H|].
  exact (buildOptimizedMessages_no_window (host := exampleHost) constructor
           (fun _ => js "{}") playedWindow (js "narrate") noVariables
           (js "go on") 0%Z [] H).
Defined.

(** * Further properties *)

(** ** Text featurizer *)

Section FeaturizerMore.
Context {host : Host}.

Lemma scan_separator a : forall run c b,
  classify c = None ->
  scan run (a ++ c :: b) = scan run a ++ scan None b.
Proof.
  induction a as [|x a IH]; intros run c b Hc.
  - simpl. rewrite Hc. now destruct run as [[k w]|].
  - rewrite <- app_comm_cons. cbn [scan].
    destruct (classify x) as [k|]; destruct run as [[k' w]|];
      try destruct (charClass_eqb k k'); rewrite IH by assumption;
      reflexivity.
Qed.

(** X1: a character outside both classes splits the text: no term spans it,
    and the terms of the whole are those of the left part followed by those
    of the right part.  Such is the line feed that [addConversation] puts
    between the two messages of a turn. *)
Theorem matchWords_separator (u a : jstring) (c : N) :
  classify c = None ->
  matchWords (u ++ c :: a) = matchWords u ++ matchWords a.
Proof. intros Hc. now apply scan_separator. Qed.

Lemma scan_uniform text : forall run,
  match run with
  | Some (k, w) => w <> [] /\ Forall (fun c => classify c = Some k) w
  | None => True
  end ->
  Forall uniform (scan run text).
Proof.
  induction text as [|c rest IH]; intros run Hrun; simpl.
  - destruct run as [[k w]|]; [|constructor].
    constructor; [|constructor]. destruct Hrun. split; eauto.
  - destruct (classify c) as [k|] eqn:Hc.
    + assert (Hone : [c] <> [] /\ Forall (fun c => classify c = Some k) [c])
        by (split; [discriminate|now repeat constructor]).
      destruct run as [[k' w]|]; [|now apply IH].
      destruct Hrun as [Hne Hw].
      destruct (charClass_eqb k k') eqn:Hk.
      * apply IH. split; [now destruct w|].
        assert (k = k') by (destruct k, k'; easy || discriminate). subst k'.
        apply Forall_app. split; [exact Hw|now repeat constructor].
      * constructor; [split; eauto|now apply IH].
    + destruct run as [[k' w]|]; [|now apply IH].
      destruct Hrun. constructor; [split; eauto|now apply IH].
Qed.

(** X2: every word that the regular expression matches is non-empty and of
    one script: all of its characters are CJK ideographs, or all are Latin
    letters. *)
Theorem matchWords_uniform (text : jstring) :
  Forall uniform (matchWords text).
Proof. apply scan_uniform. exact I. Qed.

Lemma own_define_same o k v : own (define o k v) k = Some v.
Proof.
  induction o as [|[k' v'] o IH]; simpl.
  - destruct jstring_dec; congruence.
  - destruct (jstring_dec k' k) as [->|Hne]; simpl;
      destruct jstring_dec; congruence.
Qed.

Lemma own_define_other o k v k' :
  k' <> k -> own (define o k v) k' = own o k'.
Proof.
  intros Hne. induction o as [|[k0 v0] o IH]; simpl.
  - destruct jstring_dec; congruence.
  - destruct (jstring_dec k0 k) as [->|]; simpl;
      destruct jstring_dec; congruence.
Qed.

Lemma own_None_keys o k : own o k = None <-> ~ In k (keys o).
Proof.
  unfold keys. induction o as [|[k0 v0] o IH]; simpl; [easy|].
  destruct jstring_dec as [->|Hne]; [split; [discriminate|tauto]|].
  rewrite IH. tauto.
Qed.

Lemma define_fresh o k v : ~ In k (keys o) -> define o k v = o ++ [(k, v)].
Proof.
  unfold keys. induction o as [|[k0 v0] o IH]; simpl; intros Hk; [reflexivity|].
  destruct jstring_dec as [->|_]; [tauto|]. rewrite IH; tauto.
Qed.

Lemma define_NoDup o k v : NoDup (keys o) -> NoDup (keys (define o k v)).
Proof.
  intros Ho. destruct (in_dec jstring_dec k (keys o)) as [Hin|Hout].
  - assert (E : keys (define o k v) = keys o); [|now rewrite E].
    clear Ho. unfold keys in *.
    induction o as [|[k0 v0] o IH]; simpl in *; [easy|].
    destruct jstring_dec as [->|Hne]; [reflexivity|]. simpl. f_equal.
    apply IH. tauto.
  - rewrite define_fresh by assumption. unfold keys in *. rewrite map_app.
    apply NoDup_app; [exact Ho|repeat constructor; easy|].
    simpl. intros x Hx [<-|[]]. contradiction.
Qed.

Lemma In_own_NoDup o k v : NoDup (keys o) -> In (k, v) o -> own o k = Some v.
Proof.
  unfold keys. induction o as [|[k0 v0] o IH]; simpl; intros Ho; [easy|].
  inversion Ho as [|? ? Hk Ho']; subst. intros [[= -> ->]|Hin].
  - destruct jstring_dec; congruence.
  - destruct jstring_dec as [->|_]; [|auto].
    exfalso. apply Hk. now apply (in_map fst) in Hin.
Qed.

Lemma countWord_NoDup o w : NoDup (keys o) -> NoDup (keys (countWord o w)).
Proof.
  intros Ho. unfold countWord, set. destruct (1 <? _)%nat; [|exact Ho].
  destruct jstring_dec; [exact Ho|now apply define_NoDup].
Qed.

Lemma wordFrequencies_NoDup text : NoDup (keys (wordFrequencies text)).
Proof.
  unfold wordFrequencies.
  assert (H : forall ws o, NoDup (keys o) -> NoDup (keys (fold_left countWord ws o))).
  { induction ws as [|w ws IH]; intros o Ho; simpl; [exact Ho|].
    now apply IH, countWord_NoDup. }
  apply H. constructor.
Qed.

Lemma occurrences_snoc done w k :
  occurrences (done ++ [w]) k
  = (occurrences done k + if jstring_dec w k then 1 else 0)%nat.
Proof.
  unfold occurrences. rewrite count_occ_app. simpl. now destruct jstring_dec.
Qed.

Lemma countWord_counted o done w :
  term w -> ~ In w prototypeFunctions ->
  (forall k, own o k = counted done k) ->
  forall k, own (countWord o w) k = counted (done ++ [w]) k.
Proof.
  intros Hw Hn Ho k. unfold countWord, counted. rewrite occurrences_snoc.
  destruct (1 <? length w)%nat eqn:Hlen.
  - unfold set. destruct (jstring_dec w (js "__proto__")) as [Hp|_];
      [now apply term_not_proto in Hp|].
    destruct (jstring_dec w k) as [<-|Hne].
    + rewrite own_define_same, Hlen. simpl.
      replace (0 <? occurrences done w + 1)%nat with true
        by (symmetry; apply Nat.ltb_lt; lia).
      f_equal. unfold get. rewrite Ho. unfold counted. rewrite Hlen. simpl.
      destruct (0 <? occurrences done w)%nat eqn:Hpos.
      * apply Nat.ltb_lt in Hpos. unfold js_or, js_add. simpl.
        destruct Req_dec_T as [H0|_].
        { apply (INR_eq _ 0) in H0. lia. }
        simpl. now rewrite plus_INR.
      * apply Nat.ltb_ge in Hpos.
        rewrite inherited_term by assumption.
        unfold js_or, js_add. simpl.
        replace (occurrences done w) with 0%nat by lia. simpl.
        do 2 f_equal. lra.
    + rewrite own_define_other by congruence.
      rewrite Nat.add_0_r. apply Ho.
  - destruct (jstring_dec w k) as [<-|Hne].
    + rewrite Hlen. simpl. rewrite Ho. unfold counted. now rewrite Hlen.
    + rewrite Nat.add_0_r. apply Ho.
Qed.

Lemma fold_countWord_counted ws : forall o done,
  Forall term ws -> (forall w, In w ws -> ~ In w prototypeFunctions) ->
  (forall k, own o k = counted done k) ->
  forall k, own (fold_left countWord ws o) k = counted (done ++ ws) k.
Proof.
  induction ws as [|w ws IH]; intros o done Hws Hn Ho k; simpl.
  - rewrite app_nil_r. apply Ho.
  - inversion Hws; subst.
    change (w :: ws) with ([w] ++ ws). rewrite app_assoc.
    apply IH; [assumption|intros; apply Hn; now right|].
    apply countWord_counted; [assumption|apply Hn; now left|exact Ho].
Qed.

Lemma wordFrequencies_counted text :
  (forall w, In w (matchWords text) -> ~ In w prototypeFunctions) ->
  forall k, own (wordFrequencies text) k = counted (matchWords text) k.
Proof.
  intros Hn k. unfold wordFrequencies.
  apply (fold_countWord_counted (matchWords text) [] []);
    [apply matchWords_terms|exact Hn|].
  intros k'. unfold counted. simpl. now rewrite andb_false_r.
Qed.

Lemma ranked_counted text e :
  (forall w, In w (matchWords text) -> ~ In w prototypeFunctions) ->
  In e (ranked text) ->
  (1 < length (fst e))%nat
  /\ (0 < occurrences (matchWords text) (fst e))%nat
  /\ snd e = VNum (Num (INR (occurrences (matchWords text) (fst e)))).
Proof.
  intros Hn He. apply ranked_In in He. destruct e as [k v].
  apply In_own_NoDup in He; [|apply wordFrequencies_NoDup].
  rewrite wordFrequencies_counted in He by assumption.
  unfold counted in He. simpl.
  destruct (1 <? length k)%nat eqn:H1; [|discriminate].
  destruct (0 <? occurrences (matchWords text) k)%nat eqn:H2; [|discriminate].
  apply Nat.ltb_lt in H1, H2. simpl in He. injection He as <-. auto.
Qed.

(** X3: unless a term of the text names a function of [Object.prototype],
    every keyword that [extractKeywords] returns is a term of two or more
    characters, and its weight is the number of times the term occurs in
    the text. *)
Theorem extractKeywords_frequencies (text : jstring) :
  (forall w, In w (matchWords text) -> ~ In w prototypeFunctions) ->
  Forall (fun k =>
            (1 < length (word k))%nat
            /\ (0 < occurrences (matchWords text) (word k))%nat
            /\ weight k = VNum (Num (INR (occurrences (matchWords text) (word k)))))
    (extractKeywords text).
Proof.
  intros Hn. rewrite extractKeywords_ranked.
  apply Forall_map, Forall_forall. intros e He. simpl.
  now apply ranked_counted.
Qed.

Lemma firstn_NoDup {A} n : forall l : list A, NoDup l -> NoDup (firstn n l).
Proof.
  induction n as [|n IH]; intros [|x l] Hl; simpl; try constructor.
  - inversion Hl; subst. intros Hin. now apply firstn_In in Hin.
  - inversion Hl; subst. now apply IH.
Qed.

Lemma ranked_NoDup text : NoDup (keys (ranked text)).
Proof.
  unfold ranked, keys. rewrite <- firstn_map. apply firstn_NoDup.
  eapply Permutation_NoDup; [apply Permutation_map, sort_perm|].
  apply wordFrequencies_NoDup.
Qed.

Lemma ranked_terms text : Forall (fun e => term (fst e)) (ranked text).
Proof.
  pose proof (extractKeywords_terms text) as H.
  rewrite extractKeywords_ranked, Forall_map in H. exact H.
Qed.

Lemma fold_set_fresh (es : list (jstring * jsval)) : forall acc,
  NoDup (keys (acc ++ es)) ->
  Forall (fun e => term (fst e)) es ->
  fold_left (fun vector k => set vector (word k) (weight k))
    (map (fun e => {| word := fst e; weight := snd e |}) es) acc
  = acc ++ es.
Proof.
  induction es as [|[k v] es IH]; intros acc Hnd Hes; simpl.
  - now rewrite app_nil_r.
  - inversion Hes as [|? ? Hk Hes']; subst. simpl in Hk.
    unfold set. destruct jstring_dec as [Hp|_];
      [now apply term_not_proto in Hp|].
    assert (Hfresh : ~ In k (keys acc)).
    { unfold keys in *. rewrite map_app in Hnd. simpl in Hnd.
      apply NoDup_remove_2 in Hnd. rewrite in_app_iff in Hnd. tauto. }
    rewrite define_fresh by assumption.
    rewrite IH; [now rewrite <- app_assoc|now rewrite <- app_assoc|assumption].
Qed.

Lemma createKeywordVector_ranked (text : jstring) :
  createKeywordVector text = ranked text.
Proof.
  unfold createKeywordVector. rewrite extractKeywords_ranked.
  apply (fold_set_fresh (ranked text) []);
    [apply ranked_NoDup|apply ranked_terms].
Qed.

(** X4: the vector that [createKeywordVector] returns has exactly one key
    per keyword of [extractKeywords], with its weight and in the same
    order; the keywords are pairwise distinct. *)
Theorem createKeywordVector_keywords (text : jstring) :
  createKeywordVector text
  = map (fun k => (word k, weight k)) (extractKeywords text)
  /\ NoDup (map word (extractKeywords text)).
Proof.
  rewrite createKeywordVector_ranked, extractKeywords_ranked, !map_map. simpl.
  split; [|apply ranked_NoDup].
  rewrite <- (map_id (ranked text)) at 1. apply map_ext. now intros [].
Qed.

Lemma StronglySorted_In_impl {A} (R R' : A -> A -> Prop) l :
  (forall x y, In x l -> In y l -> R x y -> R' x y) ->
  StronglySorted R l -> StronglySorted R' l.
Proof.
  intros Himpl Hs. induction Hs as [|x l Hs IH Hx]; constructor.
  - apply IH. intros; apply Himpl; simpl; auto.
  - rewrite Forall_forall in *. intros y Hy.
    apply Himpl; simpl; auto.
Qed.

Lemma StronglySorted_app_cross {A} (R : A -> A -> Prop) l1 : forall l2 x y,
  StronglySorted R (l1 ++ l2) -> In x l1 -> In y l2 -> R x y.
Proof.
  induction l1 as [|z l1 IH]; intros l2 x y Hs Hx Hy; [easy|].
  simpl in Hs. inversion Hs as [|? ? Hs' Hz]; subst.
  destruct Hx as [<-|Hx]; [|eauto].
  rewrite Forall_forall in Hz. apply Hz, in_app_iff. now right.
Qed.

Lemma sorted_entries text :
  (forall w, In w (matchWords text) -> ~ In w prototypeFunctions) ->
  StronglySorted
    (fun e1 e2 => (occurrences (matchWords text) (fst e2)
                   <= occurrences (matchWords text) (fst e1))%nat)
    (sort (fun a b => js_sub (snd b) (snd a)) (entries (wordFrequencies text))).
Proof.
  intros Hn.
  assert (Hall : forall e,
            In e (wordFrequencies text) ->
            snd e = VNum (Num (INR (occurrences (matchWords text) (fst e))))).
  { intros [k v] He. apply In_own_NoDup in He; [|apply wordFrequencies_NoDup].
    rewrite wordFrequencies_counted in He by assumption.
    unfold counted in He. simpl. destruct (_ && _)%bool; [|discriminate].
    now injection He as <-. }
  apply (StronglySorted_In_impl
           (descending (fun e : jstring * jsval => ToNumber (snd e)))).
  - intros e1 e2 H1 H2. rewrite sort_In in H1, H2.
    unfold descending. rewrite (Hall _ H1), (Hall _ H2). simpl.
    destruct Rle_dec as [Hle|]; [|discriminate]. intros _. now apply INR_le.
  - apply (sort_descending (fun e : jstring * jsval => ToNumber (snd e))).
    apply Forall_forall. intros e He. rewrite (Hall _ He). simpl. eauto.
Qed.

(** X5: unless a term of the text names a function of [Object.prototype],
    the keywords come in descending order of frequency, and they are the
    top of the ranking: a term of two or more characters that is not among
    them occurs at most as often as each of them. *)
Theorem extractKeywords_top (text : jstring) :
  (forall w, In w (matchWords text) -> ~ In w prototypeFunctions) ->
  StronglySorted
    (fun k1 k2 => (occurrences (matchWords text) (word k2)
                   <= occurrences (matchWords text) (word k1))%nat)
    (extractKeywords text)
  /\ forall w,
       In w (validTerms text) ->
       ~ In w (map word (extractKeywords text)) ->
       Forall (fun k => (occurrences (matchWords text) w
                         <= occurrences (matchWords text) (word k))%nat)
         (extractKeywords text).
Proof.
  intros Hn. pose proof (sorted_entries text Hn) as Hs.
  set (L := sort _ _) in Hs. rewrite extractKeywords_ranked.
  change (ranked text) with (firstn 20 L). split.
  - apply map_StronglySorted. cbn [word]. now apply firstn_StronglySorted.
  - intros w Hw Hout. apply Forall_map, Forall_forall. intros e He. cbn [word].
    assert (Hown : own (wordFrequencies text) w
                   = Some (VNum (Num (INR (occurrences (matchWords text) w))))).
    { rewrite wordFrequencies_counted by assumption. unfold counted.
      apply filter_In in Hw. destruct Hw as [Hin Hlen]. rewrite Hlen.
      replace (0 <? occurrences (matchWords text) w)%nat with true; [reflexivity|].
      symmetry. apply Nat.ltb_lt. unfold occurrences.
      now apply (count_occ_In jstring_dec). }
    apply own_In in Hown.
    assert (HL : In (w, VNum (Num (INR (occurrences (matchWords text) w)))) L)
      by (apply sort_In; exact Hown).
    rewrite <- (firstn_skipn 20 L) in HL, Hs.
    apply in_app_iff in HL. destruct HL as [Hkept|Hdropped].
    + exfalso. apply Hout. rewrite map_map. cbn [word].
      now apply (in_map fst) in Hkept.
    + apply (StronglySorted_app_cross _ _ _ _ _ Hs He Hdropped).
Qed.

End FeaturizerMore.

(** ** Similarity scorer *)

Section ScorerMore.
Context {host : Host}.

Lemma fold_orthogonal {K} (f g : K -> num) (l : list K) : forall d n1 n2,
  (forall k, In k l -> exists x y, f k = Num x /\ g k = Num y /\ x * y = 0) ->
  d = 0 -> 0 <= n1 -> 0 <= n2 ->
  exists d' n1' n2',
    fold_left (fun acc k => accumulate acc (f k) (g k)) l (Num d, Num n1, Num n2)
    = (Num d', Num n1', Num n2') /\ d' = 0 /\ 0 <= n1' /\ 0 <= n2'.
Proof.
  induction l as [|k l IH]; intros d n1 n2 Hl Hd H1 H2; simpl.
  - exists d, n1, n2. auto.
  - destruct (Hl k (or_introl eq_refl)) as (x & y & -> & -> & Hxy). simpl.
    pose proof (Rle_0_sqr x) as Hx. pose proof (Rle_0_sqr y) as Hy.
    unfold Rsqr in Hx, Hy.
    apply IH; [intros; apply Hl; now right|lra|lra|lra].
Qed.

Lemma cosine_zero_norm1 d n2 : cosine (Num d, Num 0, Num n2) = Num 0.
Proof. simpl. destruct (Req_dec_T 0 0); [reflexivity|congruence]. Qed.

Lemma cosine_zero_norm2 d n1 : cosine (Num d, Num n1, Num 0) = Num 0.
Proof.
  simpl. destruct (Req_dec_T n1 0); [reflexivity|]. simpl.
  destruct (Req_dec_T 0 0); [reflexivity|congruence].
Qed.

Lemma cosine_zero_dot n1 n2 :
  0 <= n1 -> 0 <= n2 -> cosine (Num 0, Num n1, Num n2) = Num 0.
Proof.
  intros H1 H2. destruct (Req_dec_T n1 0) as [->|Hn1];
    [apply cosine_zero_norm1|].
  destruct (Req_dec_T n2 0) as [->|Hn2]; [apply cosine_zero_norm2|].
  rewrite cosine_Num;
    [|destruct H1 as [H|H]; [exact H|congruence]
     |destruct H2 as [H|H]; [exact H|congruence]].
  f_equal. unfold Rdiv. lra.
Qed.

Lemma weightOf_missing (o : obj) (k : jstring) :
  ~ In k (keys o) -> inherited k = VUndefined -> weightOf o k = Num 0.
Proof.
  intros Hk Hinh. apply own_None_keys in Hk.
  unfold weightOf, get. now rewrite Hk, Hinh.
Qed.

(** X7: two sparse vectors of real weights whose keys do not name properties
    of [Object.prototype], and that share no key, have similarity 0. *)
Theorem calculateCosineSimilarity_disjoint (a b : obj) :
  numeric (Sparse a) -> numeric (Sparse b) ->
  (forall k, In k (keys a) -> ~ In k (keys b)) ->
  calculateCosineSimilarity (Sparse a) (Sparse b) = Num 0.
Proof.
  intros Ha Hb Hdis. unfold calculateCosineSimilarity. simpl.
  unfold calculateObjectCosineSimilarity.
  destruct (fold_orthogonal (weightOf a) (weightOf b)
              (new_Set (keys a ++ keys b)) 0 0 0)
    as (d & n1 & n2 & -> & -> & H1 & H2);
    [|reflexivity|lra|lra|now apply cosine_zero_dot].
  intros k Hk. apply new_Set_In, in_app_iff in Hk. destruct Hk as [Hk|Hk].
  - pose proof (keys_inherited a k Ha Hk) as Hinh.
    destruct (weightOf_real a k Ha Hinh) as (x & -> & _).
    rewrite (weightOf_missing b k) by auto.
    exists x, 0. repeat split. lra.
  - pose proof (keys_inherited b k Hb Hk) as Hinh.
    destruct (weightOf_real b k Hb Hinh) as (y & -> & _).
    rewrite (weightOf_missing a k); [|intros Hin; now apply (Hdis k)|exact Hinh].
    exists 0, y. repeat split. lra.
Qed.

Lemma fold_left_ext_In {A B} (f g : A -> B -> A) (l : list B) : forall a,
  (forall a x, In x l -> f a x = g a x) ->
  fold_left f l a = fold_left g l a.
Proof.
  induction l as [|x l IH]; intros a H; simpl; [reflexivity|].
  rewrite H by now left. apply IH. intros; apply H; now right.
Qed.

(** X8: only the common prefix of two dense vectors counts: the components
    beyond the length of the shorter one are ignored. *)
Theorem calculateCosineSimilarity_truncates (a b : list num) :
  calculateCosineSimilarity (Dense a) (Dense b)
  = calculateCosineSimilarity
      (Dense (firstn (Nat.min (length a) (length b)) a))
      (Dense (firstn (Nat.min (length a) (length b)) b)).
Proof.
  unfold calculateCosineSimilarity. simpl.
  unfold calculateArrayCosineSimilarity. rewrite !length_firstn.
  set (n := Nat.min (length a) (length b)).
  replace (Nat.min (Nat.min n (length a)) (Nat.min n (length b))) with n
    by (unfold n; lia).
  f_equal. apply fold_left_ext_In. intros acc i Hi. apply in_seq in Hi.
  rewrite !nth_firstn.
  replace (i <? n)%nat with true by (symmetry; apply Nat.ltb_lt; lia).
  reflexivity.
Qed.

End ScorerMore.

Section ScorerCounts.
Local Open Scope Z_scope.

Lemma holdsCount_perm (a a' : Doubles.obj) :
  Permutation a a' -> forall ca,
  Forall2 holdsCount a ca -> NoDup (Doubles.keys a) ->
  exists ca',
    Forall2 holdsCount a' ca'
    /\ sumSquares ca' = sumSquares ca
    /\ forall k, countOf a' ca' k = countOf a ca k.
Proof.
  induction 1 as [|x l l' Hperm IH|x y l|l l'' l' H1 IH1 H2 IH2];
    intros ca Hca Hnd.
  - inversion Hca; subst. exists []. repeat split. constructor.
  - inversion Hca as [|? n ? c Hx Hc]; subst. cbn in Hnd.
    inversion Hnd as [|? ? _ Hnd']; subst.
    destruct (IH c Hc Hnd') as (c' & Hc' & Hsum & Hcount).
    exists (n :: c'). split; [now constructor|]. split.
    + now rewrite !sumSquares_cons, Hsum.
    + intros k. destruct x as [kx vx]. rewrite !countOf_cons, Hcount.
      reflexivity.
  - inversion Hca as [|? n ? c0 Hy Hc0]; subst.
    inversion Hc0 as [|? m ? c Hx Hc]; subst.
    exists (m :: n :: c).
    split; [constructor; [exact Hx|constructor; [exact Hy|exact Hc]]|]. split.
    + rewrite !sumSquares_cons. lia.
    + intros k. destruct x as [kx vx], y as [ky vy]. rewrite !countOf_cons.
      cbn in Hnd. inversion Hnd as [|? ? Hne _]; subst.
      destruct (jstring_dec kx k) as [->|_], (jstring_dec ky k) as [->|_];
        try reflexivity.
      exfalso. apply Hne. now left.
  - destruct (IH1 ca Hca Hnd) as (c'' & Hc'' & Hsum1 & Hcount1).
    assert (Hnd'' : NoDup (Doubles.keys l'')).
    { apply (Permutation_NoDup (l := Doubles.keys l)); [|exact Hnd].
      now apply Permutation_map. }
    destruct (IH2 c'' Hc'' Hnd'') as (c' & Hc' & Hsum2 & Hcount2).
    exists c'. split; [exact Hc'|]. split; [congruence|].
    intros k. now rewrite Hcount2, Hcount1.
Qed.

(** X22: the similarity of two sparse vectors of term counts does not depend
    on the order in which the first one lists its keys. *)
Theorem calculateCosineSimilarity_key_order (a a' b : Doubles.obj) :
  NoDup (Doubles.keys a) -> Permutation a a' ->
  countVector (Doubles.Sparse a) -> countVector (Doubles.Sparse b) ->
  Doubles.calculateCosineSimilarity (Doubles.Sparse a) (Doubles.Sparse b)
  = Doubles.calculateCosineSimilarity (Doubles.Sparse a') (Doubles.Sparse b).
Proof.
  intros Hnd Hperm [ca [Ha Sa]] [cb Hb].
  destruct (holdsCount_perm a a' Hperm ca Ha Hnd) as (ca' & Ha' & Hsum & Hcount).
  assert (Hca' : countsOf a' ca') by (split; [exact Ha'|now rewrite Hsum]).
  pose proof (object_sums a b ca cb (conj Ha Sa) Hb) as H1.
  pose proof (object_sums a' b ca' cb Hca' Hb) as H2.
  cbv zeta in H1, H2. cbn [Doubles.calculateCosineSimilarity Doubles.absent
    Doubles.isArray orb negb Bool.eqb].
  unfold Doubles.calculateObjectCosineSimilarity. cbv zeta.
  set (l := new_Set (Doubles.keys a ++ Doubles.keys b)) in *.
  set (l' := new_Set (Doubles.keys a' ++ Doubles.keys b)) in *.
  assert (Hl : Permutation l' l).
  { apply NoDup_Permutation; try apply new_Set_NoDup.
    intros k. unfold l, l'. rewrite !new_Set_In, !in_app_iff.
    assert (Hk : In k (Doubles.keys a') <-> In k (Doubles.keys a)).
    { split; apply Permutation_in, Permutation_map;
        [now apply Permutation_sym|exact Hperm]. }
    tauto. }
  rewrite !(total_perm _ l' l Hl) in H2.
  rewrite (total_ext (fun k => countOf a' ca' k * countOf b cb k)
             (fun k => countOf a ca k * countOf b cb k)),
          (total_ext (fun k => countOf a' ca' k * countOf a' ca' k)
             (fun k => countOf a ca k * countOf a ca k)) in H2
    by (intros; now rewrite Hcount).
  destruct (fold_left _ l _) as [[d n1] n2].
  destruct (fold_left _ l' _) as [[d' n1'] n2'].
  destruct H1 as (Hd & Hn1 & Hn2), H2 as (Hd' & Hn1' & Hn2').
  now rewrite (integerDouble_inj _ _ _ Hd' Hd), (integerDouble_inj _ _ _ Hn1' Hn1),
    (integerDouble_inj _ _ _ Hn2' Hn2).
Qed.

(** The inequality of Cauchy and Schwarz, on integers. *)
Lemma cauchy_schwarz_step d n1 n2 x y :
  0 <= d -> 0 <= n1 -> 0 <= n2 -> 0 <= x -> 0 <= y ->
  d * d <= n1 * n2 ->
  (d + x * y) * (d + x * y) <= (n1 + x * x) * (n2 + y * y).
Proof.
  intros Hd H1 H2 Hx Hy Hc.
  assert (Hmid : 2 * (d * (x * y)) <= n1 * (y * y) + n2 * (x * x)).
  { assert (HA : 0 <= n1 * (y * y)) by nia.
    assert (HB : 0 <= n2 * (x * x)) by nia.
    assert (HC : 0 <= d * (x * y)) by nia.
    assert (Hsq : (d * (x * y)) * (d * (x * y))
                  <= (n1 * (y * y)) * (n2 * (x * x))).
    { replace ((d * (x * y)) * (d * (x * y)))
        with ((d * d) * ((x * x) * (y * y))) by ring.
      replace ((n1 * (y * y)) * (n2 * (x * x)))
        with ((n1 * n2) * ((x * x) * (y * y))) by ring.
      apply Z.mul_le_mono_nonneg_r; [nia|exact Hc]. }
    set (A := n1 * (y * y)) in *. set (B := n2 * (x * x)) in *.
    set (C := d * (x * y)) in *.
    destruct (Z_le_gt_dec (2 * C) (A + B)) as [Hle|Hgt]; [exact Hle|exfalso].
    assert (Hbig : (A + B) * (A + B) < (2 * C) * (2 * C)) by nia.
    pose proof (Z.square_nonneg (A - B)). nia. }
  nia.
Qed.

Lemma cauchy_schwarz_totals (F G : jstring -> Z) (l : list jstring) :
  (forall k, 0 <= F k) -> (forall k, 0 <= G k) ->
  0 <= total (fun k => F k * G k) l
  /\ 0 <= total (fun k => F k * F k) l
  /\ 0 <= total (fun k => G k * G k) l
  /\ total (fun k => F k * G k) l * total (fun k => F k * G k) l
     <= total (fun k => F k * F k) l * total (fun k => G k * G k) l.
Proof.
  intros HF HG. induction l as [|k l (Hd & H1 & H2 & Hc)]; [cbn; lia|].
  rewrite !total_cons. specialize (HF k). specialize (HG k).
  repeat split; try nia.
  rewrite (Z.add_comm (F k * G k)), (Z.add_comm (F k * F k)),
    (Z.add_comm (G k * G k)).
  now apply cauchy_schwarz_step.
Qed.

(** X23: on two sparse vectors of term counts the loop of
    [calculateObjectCosineSimilarity] rounds nothing: when it ends, the
    three accumulators are the integer dot product and the two integer
    squared norms of the counts, which satisfy the inequality of Cauchy and
    Schwarz, and the result is the quotient computed from them. *)
Theorem calculateObjectCosineSimilarity_exact_sums (a b : Doubles.obj)
    (ca cb : list Z) :
  countsOf a ca -> countsOf b cb ->
  let allKeys := new_Set (Doubles.keys a ++ Doubles.keys b) in
  let dot := total (fun k => countOf a ca k * countOf b cb k) allKeys in
  let squares1 := total (fun k => countOf a ca k * countOf a ca k) allKeys in
  let squares2 := total (fun k => countOf b cb k * countOf b cb k) allKeys in
  exists dotProduct norm1 norm2,
    integerDouble dotProduct dot
    /\ integerDouble norm1 squares1
    /\ integerDouble norm2 squares2
    /\ 0 <= dot /\ dot * dot <= squares1 * squares2
    /\ Doubles.calculateObjectCosineSimilarity a b
       = Doubles.cosine (dotProduct, norm1, norm2).
Proof.
  intros Ha Hb allKeys dot squares1 squares2.
  pose proof (object_sums a b ca cb Ha Hb) as H. cbv zeta in H.
  destruct (cauchy_schwarz_totals (countOf a ca) (countOf b cb) allKeys)
    as (Hdot & _ & _ & Hcs).
  { intros k. apply (countOf_range a ca k), Ha. }
  { intros k. apply (countOf_range b cb k), Hb. }
  unfold Doubles.calculateObjectCosineSimilarity. cbv zeta.
  fold allKeys in H |- *.
  destruct (fold_left _ allKeys _) as [[d n1] n2].
  destruct H as (Hd & H1 & H2). now exists d, n1, n2.
Qed.

End ScorerCounts.

(** ** Memory store and sessions *)

Section StoreMore.
Context {host : Host}.

Lemma filter_splice1 (p : entry -> bool) (t : Z) (store : list entry) i :
  findIndex (fun conv => (turnIndex conv =? t)%Z) store = Some i ->
  (forall c, turnIndex c = t -> p c = false) ->
  filter p (splice1 i store) = filter p store.
Proof.
  intros Hfind Hp. apply findIndex_Some in Hfind.
  destruct Hfind as (l1 & x & l2 & -> & <- & Hx & _).
  rewrite splice1_app, !filter_app. cbn [filter].
  apply Z.eqb_eq in Hx. now rewrite (Hp x Hx).
Qed.

(** X10: [addConversation] for one [turnIndex] leaves the turns of every
    other [turnIndex] as they are and in their order, whatever the store
    holds. *)
Theorem addConversation_other_turns B now u a t vars m (t' : Z) :
  t' <> t ->
  filter (fun c => (turnIndex c =? t')%Z)
    (conversationEmbeddings (exec (addConversation B now u a t vars) m))
  = filter (fun c => (turnIndex c =? t')%Z) (conversationEmbeddings m).
Proof.
  intros Hne. rewrite addConversation_store, filter_app. cbn [filter turnIndex newEntry].
  replace (t =? t')%Z with false by (symmetry; apply Z.eqb_neq; congruence).
  rewrite app_nil_r.
  destruct (findIndex _ _) as [i|] eqn:Hfind; [|reflexivity].
  apply (filter_splice1 _ t); [exact Hfind|].
  intros c <-. apply Z.eqb_neq. congruence.
Qed.

Lemma vectorize_tagged B method text :
  let v := vectorize B method text in
  absent v = false /\ (isArray v = true -> size v <> 0%nat).
Proof.
  unfold vectorize. destruct selectBackend as [|v]; [easy|].
  destruct (invalid v) eqn:Hv; [easy|].
  unfold invalid in Hv. apply orb_false_iff in Hv. destruct Hv as [Hv _].
  apply orb_false_iff in Hv. destruct Hv as [Habs Harr].
  split; [exact Habs|]. intros Hi. rewrite Hi in Harr. simpl in Harr.
  now apply Nat.eqb_neq.
Qed.

Lemma newEntry_tagged B method now u a t vars :
  tagged (newEntry B method now u a t vars).
Proof.
  destruct (vectorize_tagged B method (u ++ newline ++ a)) as [H1 H2].
  unfold tagged, newEntry. simpl. auto.
Qed.

Lemma splice1_Forall {A} (P : A -> Prop) i (l : list A) :
  Forall P l -> Forall P (splice1 i l).
Proof.
  intros Hl. unfold splice1. apply Forall_app. split.
  - now apply firstn_Forall.
  - rewrite <- (firstn_skipn (S i) l) in Hl. now apply Forall_app in Hl.
Qed.

Lemma step_allTagged s o : allTagged s -> allTagged (step s o).
Proof.
  intros [Hm Hdb]. destruct o; unfold allTagged; cbn [step instance stored].
  - split; [|exact Hdb]. rewrite addConversation_store.
    apply Forall_app. split; [|repeat constructor; apply newEntry_tagged].
    destruct findIndex; [now apply splice1_Forall|exact Hm].
  - split; [constructor|exact Hdb].
  - split; [|exact Hdb]. unfold setEmbeddingMethod. now destruct in_dec.
  - split; [exact Hm|exact Hdb].
  - now rewrite retrieveRelevantContext_readonly.
  - now rewrite buildOptimizedMessages_readonly.
  - split; [exact Hm|]. now destruct ok.
  - split; [|exact Hdb]. destruct ok; [|exact Hm].
    destruct (stored s); [exact Hdb|exact Hm].
  - split; [constructor|exact Hdb].
Qed.

(** X11: in every state that a session reaches, each stored turn has a
    vector that is present ([null] and [undefined] are never stored), that
    is not an empty array, and whose [vectorType] says ['dense'] exactly for
    arrays. *)
Theorem stored_vectors_tagged (ops : list operation) :
  Forall tagged (conversationEmbeddings (instance (run ops firstVisit))).
Proof.
  assert (H : forall ops s, allTagged s -> allTagged (run ops s)).
  { induction ops0 as [|o ops0 IH]; intros s Hs; simpl; [exact Hs|].
    now apply IH, step_allTagged. }
  apply (H ops firstVisit). split; [constructor|exact I].
Qed.

Lemma step_knownMethod s o :
  knownMethod (embeddingMethod (instance s)) ->
  knownMethod (embeddingMethod (instance (step s o))).
Proof.
  intros Hs. destruct o; simpl; try exact Hs.
  - unfold setEmbeddingMethod. destruct in_dec as [Hin|_]; [exact Hin|exact Hs].
  - now rewrite retrieveRelevantContext_readonly.
  - now rewrite buildOptimizedMessages_readonly.
  - destruct ok; [|exact Hs]. now destruct (stored s).
  - left. reflexivity.
Qed.

(** X12: through the methods of the class, [embeddingMethod] is always one
    of ['keyword'], ['api'] and ['transformers']: [setEmbeddingMethod]
    ignores every other value. *)
Theorem embeddingMethod_known (ops : list operation) :
  knownMethod (embeddingMethod (instance (run ops firstVisit))).
Proof.
  assert (H : forall ops s, knownMethod (embeddingMethod (instance s)) ->
                            knownMethod (embeddingMethod (instance (run ops s)))).
  { induction ops0 as [|o ops0 IH]; intros s Hs; simpl; [exact Hs|].
    now apply IH, step_knownMethod. }
  apply (H ops firstVisit). left. reflexivity.
Qed.

Lemma step_stored s o : o <> Save true -> stored (step s o) = stored s.
Proof.
  intros Ho. destruct o; simpl; try reflexivity.
  destruct ok; [congruence|reflexivity].
Qed.

Lemma run_stored ops : forall s,
  Forall (fun o => o <> Save true) ops -> stored (run ops s) = stored s.
Proof.
  induction ops as [|o ops IH]; intros s Hops; simpl; [reflexivity|].
  inversion Hops; subst. rewrite IH by assumption. now apply step_stored.
Qed.

(** X13: a successful save followed, after any operations other than a
    further successful save (a reload of the page included), by a
    successful load gives back the store as it was when it was saved. *)
Theorem save_load_roundtrip (s : session) (ops : list operation) :
  Forall (fun o => o <> Save true) ops ->
  conversationEmbeddings
    (instance (run (Save true :: ops ++ [Load true]) s))
  = conversationEmbeddings (instance s).
Proof.
  intros Hops. unfold run. simpl. rewrite fold_left_app. simpl.
  fold (run ops {| instance := instance s;
                   stored := Some (conversationEmbeddings (instance s)) |}).
  rewrite run_stored by assumption. reflexivity.
Qed.

(** X14: when [embeddingMethod] is neither ['api'] nor ['transformers'], the
    turn that [addConversation] stores carries the sparse keyword vector of
    the two messages joined by a line feed, tagged ['sparse'], whatever the
    backends would do. *)
Theorem addConversation_keyword B now u a t vars m :
  embeddingMethod m <> js "api" ->
  embeddingMethod m <> js "transformers" ->
  exists older conv,
    conversationEmbeddings (exec (addConversation B now u a t vars) m)
    = older ++ [conv]
    /\ vector conv = Sparse (createKeywordVector (u ++ newline ++ a))
    /\ vectorType conv = sparse.
Proof.
  intros Hapi Htf. rewrite addConversation_store.
  eexists _, _. split; [reflexivity|].
  assert (Hv : vectorize B (embeddingMethod m) (u ++ newline ++ a)
               = Sparse (createKeywordVector (u ++ newline ++ a))).
  { unfold vectorize, selectBackend.
    repeat (destruct jstring_dec; try contradiction); now destruct invalid. }
  unfold newEntry. cbv zeta. cbn [vector vectorType]. rewrite Hv.
  split; reflexivity.
Qed.

End StoreMore.

(** ** Retriever *)

Section RetrieverMore.
Context {host : Host}.

Lemma kept_turns_NoDup (keep : Scored.t -> bool) (items : list Scored.t) :
  NoDup (map Scored.turnIndex items) ->
  NoDup (map Scored.turnIndex (filter keep items)).
Proof.
  induction items as [|item items IH]; cbn [filter map]; intros Hnd;
    [constructor|].
  inversion Hnd as [|? ? Hfresh Hrest]; subst.
  destruct (keep item); cbn [map]; [|now apply IH].
  constructor; [|now apply IH].
  rewrite in_map_iff. intros (other & Hsame & Hin).
  apply filter_In in Hin. apply Hfresh, in_map_iff. exists other. tauto.
Qed.

Lemma scored_turns (currentVector : obj) (store : list entry) : forall n,
  map Scored.turnIndex
    (map (score currentVector) (combine (seq n (length store)) store))
  = map turnIndex store.
Proof.
  induction store as [|conv store IH]; intros n; simpl; [reflexivity|].
  f_equal. apply IH.
Qed.

(** X15: every chunk that [retrieveRelevantContext] returns shows a turn of
    the store (its index, messages and summary); and when the turns of the
    store have distinct indices, no turn is returned twice. *)
Theorem retrieveRelevantContext_from_store m currentInput recentHistory :
  let chunks :=
    relevantChunks (eval (retrieveRelevantContext currentInput recentHistory) m) in
  Forall (fun c => exists conv, In conv (conversationEmbeddings m) /\ shows c conv)
    chunks
  /\ (uniqueTurns (conversationEmbeddings m) ->
      NoDup (map Chunk.turnIndex chunks)).
Proof.
  rewrite retrieveRelevantContext_eval. cbv zeta.
  destruct (_ || _)%bool; cbn [relevantChunks].
  { split; [constructor|intros _; constructor]. }
  set (cv := createKeywordVector currentInput).
  set (store := conversationEmbeddings m).
  set (cmp := fun a b : Scored.t => nsub (Scored.similarity b) (Scored.similarity a)).
  set (keep := fun item : Scored.t =>
                 nge (Scored.similarity item) (minSimilarityThreshold m)).
  split.
  - apply Forall_map, Forall_forall. intros item Hin.
    apply firstn_In, sort_In, filter_In in Hin. destruct Hin as [Hin _].
    apply in_map_iff in Hin. destruct Hin as ([i conv] & <- & Hin).
    apply in_combine_r in Hin. exists conv. split; [exact Hin|].
    repeat split.
  - intros Huniq. rewrite map_map.
    change (fun x => Chunk.turnIndex (toChunk x)) with Scored.turnIndex.
    rewrite <- firstn_map. apply firstn_NoDup.
    eapply Permutation_NoDup; [apply Permutation_map, sort_perm|].
    apply kept_turns_NoDup. unfold store. rewrite scored_turns. exact Huniq.
Qed.

Lemma score_alike (cv : obj) (i : nat) (c c' : entry) :
  alike c c' -> sameChunk (score cv (i, c)) (score cv (i, c')).
Proof.
  intros (Ht & Hu & Ha & Hs & Hv).
  assert (Hsim : Scored.similarity (score cv (i, c))
                 = Scored.similarity (score cv (i, c'))).
  { simpl. rewrite Hu, Ha. destruct Hv as [-> | [-> ->]]; reflexivity. }
  split; [exact Hsim|]. unfold toChunk. rewrite Hsim. simpl.
  now rewrite Ht, Hu, Ha, Hs.
Qed.

Lemma scored_alike (cv : obj) (store store' : list entry) : forall n,
  Forall2 alike store store' ->
  Forall2 sameChunk
    (map (score cv) (combine (seq n (length store)) store))
    (map (score cv) (combine (seq n (length store')) store')).
Proof.
  intros n H. revert n. induction H as [|c c' l l' Hc Hl IH]; intros n; simpl.
  - constructor.
  - constructor; [now apply score_alike|apply IH].
Qed.

Lemma filter_sameChunk (threshold : num) (l l' : list Scored.t) :
  Forall2 sameChunk l l' ->
  Forall2 sameChunk
    (filter (fun item => nge (Scored.similarity item) threshold) l)
    (filter (fun item => nge (Scored.similarity item) threshold) l').
Proof.
  induction 1 as [|x x' l l' [Hx Hc] Hl IH]; simpl; [constructor|].
  rewrite Hx. destruct nge; [constructor; [split|]|]; assumption.
Qed.

Lemma insert_sameChunk (x x' : Scored.t) (l l' : list Scored.t) :
  sameChunk x x' -> Forall2 sameChunk l l' ->
  Forall2 sameChunk
    (insert (fun a b => nsub (Scored.similarity b) (Scored.similarity a)) x l)
    (insert (fun a b => nsub (Scored.similarity b) (Scored.similarity a)) x' l').
Proof.
  intros Hx Hl. induction Hl as [|y y' l l' Hy Hl IH]; simpl.
  - constructor; [exact Hx|constructor].
  - pose proof Hx as Hxx. destruct Hx as [Hx Hcx]. destruct Hy as [Hy Hcy]. rewrite Hx, Hy.
    destruct positive; repeat constructor; try assumption.
Qed.

Lemma sort_sameChunk (l l' : list Scored.t) :
  Forall2 sameChunk l l' ->
  Forall2 sameChunk
    (sort (fun a b => nsub (Scored.similarity b) (Scored.similarity a)) l)
    (sort (fun a b => nsub (Scored.similarity b) (Scored.similarity a)) l').
Proof.
  induction 1 as [|x x' l l' Hx Hl IH]; simpl; [constructor|].
  now apply insert_sameChunk.
Qed.

Lemma firstn_Forall2 {A B} (R : A -> B -> Prop) n : forall l l',
  Forall2 R l l' -> Forall2 R (firstn n l) (firstn n l').
Proof.
  induction n as [|n IH]; intros l l' H; simpl; [constructor|].
  destruct H; constructor; auto.
Qed.

Lemma map_toChunk_sameChunk (l l' : list Scored.t) :
  Forall2 sameChunk l l' -> map toChunk l = map toChunk l'.
Proof.
  induction 1 as [|x x' l l' [_ Hx] Hl IH]; simpl; [reflexivity|].
  now rewrite Hx, IH.
Qed.

(** X16: the retriever never uses a dense vector of the store: replacing
    the dense vectors of stored turns by any other dense vectors, under the
    same configuration, changes nothing in what [retrieveRelevantContext]
    returns. *)
Theorem retrieveRelevantContext_ignores_dense m m' currentInput recentHistory :
  maxRetrieveCount m = maxRetrieveCount m' ->
  minSimilarityThreshold m = minSimilarityThreshold m' ->
  Forall2 alike (conversationEmbeddings m) (conversationEmbeddings m') ->
  eval (retrieveRelevantContext currentInput recentHistory) m
  = eval (retrieveRelevantContext currentInput recentHistory) m'.
Proof.
  intros Hcount Hthreshold Hstore. rewrite !retrieveRelevantContext_eval.
  cbv zeta. rewrite <- (Forall2_length Hstore) at 1. rewrite <- Hcount, <- Hthreshold.
  destruct (_ || _)%bool; [reflexivity|]. f_equal.
  apply map_toChunk_sameChunk, firstn_Forall2, sort_sameChunk, filter_sameChunk.
  now apply scored_alike.
Qed.

Lemma retrieve_nothing m currentInput recentHistory :
  conversationEmbeddings m = [] \/ validTerms currentInput = [] ->
  relevantChunks (eval (retrieveRelevantContext currentInput recentHistory) m)
  = [].
Proof.
  rewrite retrieveRelevantContext_eval. cbv zeta. intros [Hstore|Hterms].
  - now rewrite Hstore.
  - apply createKeywordVector_nil in Hterms. rewrite Hterms.
    cbn [keys map length Nat.eqb]. now rewrite orb_true_r.
Qed.

(** X17: [retrieveRelevantContext] hands the recent history back as it
    received it, and it returns no chunk when the store is empty or the
    input has no term of two or more characters. *)
Theorem retrieveRelevantContext_nothing m currentInput recentHistory :
  recentChunks (eval (retrieveRelevantContext currentInput recentHistory) m)
  = recentHistory
  /\ (conversationEmbeddings m = [] \/ validTerms currentInput = [] ->
      relevantChunks (eval (retrieveRelevantContext currentInput recentHistory) m)
      = []).
Proof.
  split; [|apply retrieve_nothing].
  rewrite retrieveRelevantContext_eval. cbv zeta. now destruct (_ || _)%bool.
Qed.

End RetrieverMore.

(** ** Context assembler and summaries *)

Section AssemblerMore.
Context {host : Host}.

Lemma recentWindow_suffix w d (h : list message) :
  (0 < d)%Z -> h <> [] ->
  exists older,
    h = older ++ recentWindow w d h
    /\ length (recentWindow w d h) = Nat.min (2 * Z.to_nat d) (length h).
Proof.
  intros Hd Hh. unfold recentWindow.
  assert (Hlen : (0 <? length h)%nat = true)
    by (apply Nat.ltb_lt; destruct h; simpl; [easy|lia]).
  rewrite Hlen. cbv zeta. rewrite Hlen.
  replace (0 <? d)%Z with true by (symmetry; now apply Z.ltb_lt).
  cbn [andb]. unfold slice_from. cbv zeta.
  replace (- d * 2 <? 0)%Z with true by (symmetry; apply Z.ltb_lt; lia).
  set (k := Z.to_nat (Z.max (Z.of_nat (length h) + - d * 2) 0)).
  exists (firstn k h). split; [now rewrite firstn_skipn|].
  rewrite length_skipn. unfold k. lia.
Qed.

(** X18: for every positive [historyDepth] and every non-empty history
    passed in, the context holds, between the memory message (if any) and
    the final user message, the last [2 * historyDepth] messages of that
    history in their order, or the whole history when it is shorter. *)
Theorem buildOptimizedMessages_suffix m stringify w p v q d (h : list message) :
  (0 < d)%Z -> h <> [] ->
  exists memory older recent,
    h = older ++ recent
    /\ length recent = Nat.min (2 * Z.to_nat d) (length h)
    /\ eval (buildOptimizedMessages stringify w p v q d h) m
       = preamble stringify p v ++ memory ++ recent
         ++ [ {| role := js "user"; content := q |} ]
    /\ (memory = []
        \/ exists text, memory = [ {| role := js "system"; content := text |} ]).
Proof.
  intros Hd Hh. destruct (recentWindow_suffix w d h Hd Hh) as (older & Hsplit & Hlen).
  exists (memoryMessage (relevantChunks (eval (retrieveRelevantContext q []) m))),
    older, (recentWindow w d h).
  split; [exact Hsplit|]. split; [exact Hlen|].
  split; [apply buildOptimizedMessages_eval|apply memoryMessage_shape].
Qed.

(** X19: the summary of a turn is the player tag, then the first 50 code
    units of the user message (the whole message when it is shorter), then
    the three dots exactly when the message has 50 code units or more; what
    follows is the keyword part when the reply has keywords, then the
    location part when a location is set, each introduced by [" | "] and
    nothing else. *)
Theorem extractSummary_preview (u a : jstring) (vars : gameVariables) :
  extractSummary u a vars
  = str_player ++ firstn 50 u
    ++ (if (length u <? 50)%nat then [] else js "...")
    ++ (if (0 <? length (extractKeywords a))%nat
        then js " | " ++ str_keywords
             ++ join str_comma (map word (firstn 5 (extractKeywords a)))
        else [])
    ++ match location vars with
       | Some (c :: l) => js " | " ++ str_location ++ c :: l
       | _ => []
       end.
Proof.
  assert (Hpre : (if (length u <? 50)%nat then [str_player ++ u]
                  else [str_player ++ substring0 50 u ++ js "..."])
                 = [str_player ++ firstn 50 u
                    ++ (if (length u <? 50)%nat then [] else js "...")]).
  { destruct (length u <? 50)%nat eqn:Hlen.
    - apply Nat.ltb_lt in Hlen. rewrite firstn_all2 by lia.
      now rewrite app_nil_r.
    - reflexivity. }
  unfold extractSummary. cbv zeta. rewrite Hpre.
  destruct (0 <? length (extractKeywords a))%nat;
    destruct (location vars) as [[|c l]|]; cbn [app join];
    rewrite <- ?app_assoc, ?app_nil_r; reflexivity.
Qed.

End AssemblerMore.

(** ** Completeness of the retriever *)

Section RoundTrip.
Context {host : Host}.

Lemma scored_chunks (cv : obj) (threshold : num) (store : list entry) : forall n,
  map toChunk
    (filter (fun item => nge (Scored.similarity item) threshold)
       (map (score cv) (combine (seq n (length store)) store)))
  = map (fun conv => toChunk (score cv (0%nat, conv)))
      (filter (fun conv =>
                 nge (Chunk.similarity (toChunk (score cv (0%nat, conv)))) threshold)
         store).
Proof.
  induction store as [|conv store IH]; intros n; [reflexivity|].
  cbn [length seq combine map filter].
  change (Chunk.similarity (toChunk (score cv (0%nat, conv))))
    with (Scored.similarity (score cv (n, conv))).
  destruct (nge (Scored.similarity (score cv (n, conv))) threshold);
    cbn [map]; [f_equal|]; apply IH.
Qed.

Lemma retrieve_complete m currentInput recentHistory :
  validTerms currentInput <> [] ->
  (length (passing currentInput m) <= maxRetrieveCount m)%nat ->
  Permutation (map (chunkOf currentInput) (passing currentInput m))
    (relevantChunks (eval (retrieveRelevantContext currentInput recentHistory) m)).
Proof.
  intros Hterms Hcount. rewrite retrieveRelevantContext_eval. cbv zeta.
  assert (Hcv : (length (keys (createKeywordVector currentInput)) =? 0)%nat = false).
  { apply Nat.eqb_neq. unfold keys. rewrite length_map.
    rewrite <- createKeywordVector_nil in Hterms.
    destruct (createKeywordVector currentInput); [easy|discriminate]. }
  rewrite Hcv, orb_false_r. unfold passing in *.
  destruct (conversationEmbeddings m) as [|conv store] eqn:Hstore;
    [reflexivity|].
  change (length (conv :: store) =? 0)%nat with false. cbn [relevantChunks].
  rewrite <- Hstore in *. clear Hstore conv store.
  set (cv := createKeywordVector currentInput) in *.
  set (F := filter _ (map (score cv) _)).
  pose proof (scored_chunks cv (minSimilarityThreshold m)
                (conversationEmbeddings m) 0) as Hchunks.
  fold F in Hchunks. unfold chunkOf. fold cv. rewrite <- Hchunks.
  assert (Hlen : (length F <= maxRetrieveCount m)%nat).
  { rewrite <- (length_map toChunk F), Hchunks, length_map. exact Hcount. }
  rewrite firstn_all2 by (rewrite sort_length; exact Hlen).
  apply Permutation_map, sort_perm.
Qed.

(** X20: when the input has a term of two or more characters and at most
    [maxRetrieveCount] stored turns reach the threshold, every one of them
    is returned: the chunks are those turns, each with its score. *)
Theorem retrieveRelevantContext_complete m currentInput recentHistory :
  validTerms currentInput <> [] ->
  (length (passing currentInput m) <= maxRetrieveCount m)%nat ->
  Permutation (map (chunkOf currentInput) (passing currentInput m))
    (relevantChunks (eval (retrieveRelevantContext currentInput recentHistory) m)).
Proof. apply retrieve_complete. Qed.

End RoundTrip.

(** * Closed examples of the further properties *)

Lemma matchWords_separator_witness :
  classify 10 = None
  /\ matchWords (js "go north" ++ 10%N :: js "you walk")
     = matchWords (js "go north") ++ matchWords (js "you walk").
Proof.
  split; [reflexivity|].
  exact (matchWords_separator (js "go north") (js "you walk") 10%N eq_refl).
Defined.

Lemma extractKeywords_frequencies_witness :
  (forall w, In w (matchWords heroText) -> ~ In w prototypeFunctions)
  /\ Forall (fun k =>
               (1 < length (word k))%nat
               /\ (0 < occurrences (matchWords heroText) (word k))%nat
               /\ weight k
                  = VNum (Num (INR (occurrences (matchWords heroText) (word k)))))
       (extractKeywords (host := exampleHost) heroText).
Proof.
  assert (H : forall w, In w (matchWords heroText) -> ~ In w prototypeFunctions).
  { intros w Hin Hp. vm_compute in Hin. vm_compute in Hp.
    intuition congruence. }
  split; [exact H|].
  exact (extractKeywords_frequencies (host := exampleHost) heroText H).
Defined.

Lemma extractKeywords_top_witness :
  (forall w, In w (matchWords heroText) -> ~ In w prototypeFunctions)
  /\ StronglySorted
       (fun k1 k2 => (occurrences (matchWords heroText) (word k2)
                      <= occurrences (matchWords heroText) (word k1))%nat)
       (extractKeywords (host := exampleHost) heroText).
Proof.
  assert (H : forall w, In w (matchWords heroText) -> ~ In w prototypeFunctions).
  { intros w Hin Hp. vm_compute in Hin. vm_compute in Hp.
    intuition congruence. }
  split; [exact H|].
  exact (proj1 (extractKeywords_top (host := exampleHost) heroText H)).
Defined.

Lemma calculateCosineSimilarity_disjoint_witness :
  calculateCosineSimilarity (host := exampleHost)
    (Sparse [(js "hero", VNum (Num 1))]) (Sparse [(js "sword", VNum (Num 2))])
  = Num 0.
Proof.
  assert (H1 : numeric (Sparse [(js "hero", VNum (Num 1))])).
  { repeat constructor. simpl. eauto. }
  assert (H2 : numeric (Sparse [(js "sword", VNum (Num 2))])).
  { repeat constructor. simpl. eauto. }
  assert (H3 : forall k, In k (keys [(js "hero", VNum (Num 1))]) ->
                         ~ In k (keys [(js "sword", VNum (Num 2))])).
  { intros k [<-|[]] [H|[]]. discriminate H. }
  exact (calculateCosineSimilarity_disjoint (host := exampleHost) _ _ H1 H2 H3).
Defined.

Lemma addConversation_other_turns_witness :
  2%Z <> 1%Z
  /\ filter (fun c => (turnIndex c =? 2)%Z)
       (conversationEmbeddings
          (exec (addConversation (host := exampleHost) throwingBackends 0
                   (js "hero") (js "ok") 1 noVariables)
             (withStore [denseTurn [Num 1]])))
     = filter (fun c => (turnIndex c =? 2)%Z)
         (conversationEmbeddings (withStore [denseTurn [Num 1]])).
Proof.
  assert (H : 2%Z <> 1%Z) by lia.
  split; [exact H|].
  exact (addConversation_other_turns (host := exampleHost) throwingBackends 0%Z
           (js "hero") (js "ok") 1%Z noVariables
           (withStore [denseTurn [Num 1]]) 2%Z H).
Defined.

Lemma save_load_roundtrip_witness :
  Forall (fun o => o <> Save true) [Clear; Reload]
  /\ conversationEmbeddings
       (instance (run (host := exampleHost)
                    (Save true :: [Clear; Reload] ++ [Load true])
                    {| instance := withStore [denseTurn [Num 1]];
                       stored := None |}))
     = [denseTurn [Num 1]].
Proof.
  assert (H : Forall (fun o => o <> Save true) [Clear; Reload])
    by (repeat constructor; discriminate).
  split; [exact H|].
  exact (save_load_roundtrip (host := exampleHost)
           {| instance := withStore [denseTurn [Num 1]]; stored := None |}
           [Clear; Reload] H).
Defined.

Lemma addConversation_keyword_witness :
  embeddingMethod constructor <> js "api"
  /\ embeddingMethod constructor <> js "transformers"
  /\ exists older conv,
       conversationEmbeddings
         (exec (addConversation (host := exampleHost) throwingBackends 0
                  (js "hero") (js "ok") 1 noVariables) constructor)
       = older ++ [conv]
       /\ vector conv
          = Sparse (createKeywordVector (host := exampleHost)
                      (js "hero" ++ newline ++ js "ok"))
       /\ vectorType conv = sparse.
Proof.
  assert (H1 : embeddingMethod constructor <> js "api")
    by (vm_compute; discriminate).
  assert (H2 : embeddingMethod constructor <> js "transformers")
    by (vm_compute; discriminate).
  split; [exact H1|]. split; [exact H2|].
  exact (addConversation_keyword (host := exampleHost) throwingBackends 0%Z
           (js "hero") (js "ok") 1%Z noVariables constructor H1 H2).
Defined.

Lemma retrieveRelevantContext_from_store_witness :
  uniqueTurns (conversationEmbeddings (withStore [denseTurn [Num 1]]))
  /\ NoDup (map Chunk.turnIndex
              (relevantChunks
                 (eval (retrieveRelevantContext (host := exampleHost)
                          (js "forest") [])
                    (withStore [denseTurn [Num 1]])))).
Proof.
  assert (H : uniqueTurns (conversationEmbeddings (withStore [denseTurn [Num 1]])))
    by (repeat constructor; simpl; tauto).
  split; [exact H|].
  exact (proj2 (retrieveRelevantContext_from_store (host := exampleHost)
                  (withStore [denseTurn [Num 1]]) (js "forest") []) H).
Defined.

Lemma retrieveRelevantContext_ignores_dense_witness :
  Forall2 alike [denseTurn [Num 1]] [denseTurn [Num 2; Num 3]]
  /\ eval (retrieveRelevantContext (host := exampleHost) (js "forest") [])
       (withStore [denseTurn [Num 1]])
     = eval (retrieveRelevantContext (host := exampleHost) (js "forest") [])
         (withStore [denseTurn [Num 2; Num 3]]).
Proof.
  assert (H : Forall2 alike [denseTurn [Num 1]] [denseTurn [Num 2; Num 3]]).
  { constructor; [|constructor]. repeat split. right. split; reflexivity. }
  split; [exact H|].
  exact (retrieveRelevantContext_ignores_dense (host := exampleHost)
           (withStore [denseTurn [Num 1]]) (withStore [denseTurn [Num 2; Num 3]])
           (js "forest") [] eq_refl eq_refl H).
Defined.

Lemma retrieveRelevantContext_nothing_witness :
  (conversationEmbeddings (withStore [denseTurn [Num 1]]) = []
   \/ validTerms (js "a 1 ?") = [])
  /\ relevantChunks
       (eval (retrieveRelevantContext (host := exampleHost) (js "a 1 ?") [])
          (withStore [denseTurn [Num 1]])) = [].
Proof.
  assert (H : conversationEmbeddings (withStore [denseTurn [Num 1]]) = []
              \/ validTerms (js "a 1 ?") = [])
    by (right; reflexivity).
  split; [exact H|].
  exact (proj2 (retrieveRelevantContext_nothing (host := exampleHost)
                  (withStore [denseTurn [Num 1]]) (js "a 1 ?") []) H).
Defined.

Lemma buildOptimizedMessages_suffix_witness :
  (0 < 1)%Z /\ [say "user" "look around"] <> []
  /\ exists memory older recent,
       [say "user" "look around"] = older ++ recent
       /\ length recent = Nat.min (2 * Z.to_nat 1) (length [say "user" "look around"])
       /\ eval (buildOptimizedMessages (host := exampleHost) (fun _ => js "{}")
                  playedWindow (js "narrate") noVariables (js "go on") 1
                  [say "user" "look around"]) constructor
          = preamble (fun _ => js "{}") (js "narrate") noVariables ++ memory
            ++ recent ++ [ {| role := js "user"; content := js "go on" |} ]
       /\ (memory = []
           \/ exists text,
                memory = [ {| role := js "system"; content := text |} ]).
Proof.
  assert (H1 : (0 < 1)%Z) by lia.
  assert (H2 : [say "user" "look around"] <> []) by discriminate.
  split; [exact H1|]. split; [exact H2|].
  exact (buildOptimizedMessages_suffix (host := exampleHost) constructor
           (fun _ => js "{}") playedWindow (js "narrate") noVariables
           (js "go on") 1%Z [say "user" "look around"] H1 H2).
Defined.

Lemma retrieveRelevantContext_complete_witness :
  validTerms (js "forest") <> []
  /\ Permutation
       (map (chunkOf (host := exampleHost) (js "forest"))
          (passing (host := exampleHost) (js "forest")
             (withStore [denseTurn [Num 1]])))
       (relevantChunks
          (eval (retrieveRelevantContext (host := exampleHost) (js "forest") [])
             (withStore [denseTurn [Num 1]]))).
Proof.
  assert (H1 : validTerms (js "forest") <> []) by (vm_compute; discriminate).
  assert (H2 : (length (passing (host := exampleHost) (js "forest")
                          (withStore [denseTurn [Num 1]]))
                <= maxRetrieveCount (withStore [denseTurn [Num 1]]))%nat).
  { unfold passing. etransitivity; [apply filter_length_le|]. simpl. lia. }
  split; [exact H1|].
  exact (retrieveRelevantContext_complete (host := exampleHost)
           (withStore [denseTurn [Num 1]]) (js "forest") [] H1 H2).
Defined.

Lemma calculateCosineSimilarity_key_order_witness :
  let a := [(js "hero", 2%float); (js "sword", 1%float)] in
  let a' := [(js "sword", 1%float); (js "hero", 2%float)] in
  let b := [(js "forest", 3%float); (js "hero", 1%float)] in
  NoDup (Doubles.keys a) /\ Permutation a a'
  /\ countVector (Doubles.Sparse a) /\ countVector (Doubles.Sparse b)
  /\ Doubles.calculateCosineSimilarity (Doubles.Sparse a) (Doubles.Sparse b)
     = Doubles.calculateCosineSimilarity (Doubles.Sparse a') (Doubles.Sparse b).
Proof.
  intros a a' b.
  assert (H1 : NoDup (Doubles.keys a)).
  { repeat constructor; cbn; [intros [H|[]]; discriminate H|tauto]. }
  assert (H2 : Permutation a a') by apply perm_swap.
  assert (H3 : countVector (Doubles.Sparse a)).
  { exists [2; 1]%Z. split; [|reflexivity]. repeat constructor; discriminate. }
  assert (H4 : countVector (Doubles.Sparse b)).
  { exists [3; 1]%Z. split; [|reflexivity]. repeat constructor; discriminate. }
  split; [exact H1|]. split; [exact H2|]. split; [exact H3|]. split; [exact H4|].
  exact (calculateCosineSimilarity_key_order a a' b H1 H2 H3 H4).
Defined.

Lemma calculateObjectCosineSimilarity_exact_sums_witness :
  let a := [(js "hero", 2%float); (js "sword", 1%float)] in
  let b := [(js "forest", 3%float); (js "hero", 1%float)] in
  countsOf a [2; 1]%Z /\ countsOf b [3; 1]%Z
  /\ exists dotProduct norm1 norm2,
       integerDouble dotProduct 2 /\ integerDouble norm1 5
       /\ integerDouble norm2 10
       /\ (0 <= 2)%Z /\ (2 * 2 <= 5 * 10)%Z
       /\ Doubles.calculateObjectCosineSimilarity a b
          = Doubles.cosine (dotProduct, norm1, norm2).
Proof.
  intros a b.
  assert (Ha : countsOf a [2; 1]%Z).
  { split; [|reflexivity]. repeat constructor; discriminate. }
  assert (Hb : countsOf b [3; 1]%Z).
  { split; [|reflexivity]. repeat constructor; discriminate. }
  split; [exact Ha|]. split; [exact Hb|].
  exact (calculateObjectCosineSimilarity_exact_sums a b [2; 1]%Z [3; 1]%Z Ha Hb).
Defined.
